(** * framew0rk: position ledger, token cache, amount formatting, risk score

    A shallow embedding of the parts of the repository that the
    specification's testable properties talk about:

    - [Ledger]: the contract [src/contracts/PortfolioTracker.sol];
    - [Chain]: [BlockchainService.getTokenInfo] of [src/server/lib/blockchain.ts];
    - [Graph]: [GraphService.formatTokenAmount] of the same file;
    - [Portfolio]: [calculateRiskScore] of the portfolio hook.

    Solidity's [uint256] and [address] values are binary naturals ([N]); the
    checked arithmetic of Solidity 0.8 ([++], [--], [-]) is written out and
    reverts with [Panic 0x11].  A reverted transaction leaves the storage
    as it was.  Gas and the compiler's bound on array sizes are outside the
    model.  JavaScript numbers are binary64 values ([JS.number]); their
    addition and division round to nearest, ties to even. *)

From Stdlib Require Import ZArith NArith QArith Qabs Qpower Lia List String Ascii.
From stdpp Require Import base option list gmap strings.

Local Open Scope N_scope.

(** ** JavaScript values shared by the TypeScript parts *)

Module JS.

Definition digit_char (d : N) : ascii := ascii_of_N (48 + d).

Definition char_digit (c : ascii) : option N :=
  let n := N_of_ascii c in
  if (48 <=? n) && (n <=? 57) then Some (n - 48) else None.

(** The decimal digits of [n], least significant first.  [fuel] bounds
    their number. *)
Fixpoint digits_le (fuel : nat) (n : N) : list N :=
  match fuel with
  | O => []
  | S f => (n mod 10) :: (if n / 10 =? 0 then [] else digits_le f (n / 10))
  end.

Definition of_digits (ds : list N) : string :=
  string_of_list_ascii (map digit_char ds).

(** The number that the digits [ds], most significant first, denote
    after the digits already accumulated in [acc]. *)
Definition digits_value (ds : list N) (acc : N) : N :=
  fold_left (fun a d => 10 * a + d) ds acc.

(** [BigInt.prototype.toString()] on a non-negative value. *)
Definition N_toString (n : N) : string :=
  of_digits (rev (digits_le (S (N.to_nat (N.size n))) n)).

(** [BigInt.prototype.toString()]. *)
Definition BigInt_toString (z : Z) : string :=
  match z with
  | Z0 => "0"
  | Zpos p => N_toString (Npos p)
  | Zneg p => String "-" (N_toString (Npos p))
  end.

(** [String.prototype.padStart(targetLength, c)] with a one-character
    filler. *)
Definition padStart (s : string) (targetLength : nat) (c : ascii) : string :=
  string_of_list_ascii (repeat c (targetLength - String.length s)) ++ s.

(** Reads the longest run of decimal digits at the head of [s] into the
    accumulator: the value, the number of digits read, and the rest. *)
Fixpoint read_digits (s : string) (acc : N) (count : nat) : N * nat * string :=
  match s with
  | EmptyString => (acc, count, s)
  | String c rest =>
      match char_digit c with
      | Some d => read_digits rest (10 * acc + d) (S count)
      | None => (acc, count, s)
      end
  end.

(** A JavaScript number: a binary64 value.  [Finite m e] is [m * 2^e];
    the sign of zero is not kept. *)
Inductive number :=
| NaN
| Infinity (negative : bool)
| Finite (m e : Z).

Definition number_value (x : number) : option Q :=
  match x with
  | Finite m e => Some (inject_Z m * Qpower 2 e)%Q
  | _ => None
  end.

(** [num / den] rounded to the nearest integer, ties to even. *)
Definition round_half_even (num den : Z) : Z :=
  let a := (num / den)%Z in
  let r := (num mod den)%Z in
  match (2 * r ?= den)%Z with
  | Lt => a
  | Gt => (a + 1)%Z
  | Eq => if Z.even a then a else (a + 1)%Z
  end.

(** The binary64 number nearest to [p / q] for [0 <= p] and [0 < q],
    ties to even, with gradual underflow and overflow to infinity. *)
Definition binary64_of_ratio (negative : bool) (p q : Z) : number :=
  if (p =? 0)%Z then Finite 0 0
  else
    let e0 := (Z.log2 p - Z.log2 q)%Z in
    let floor_log2 :=
      if (0 <=? e0)%Z
      then (if (q * 2 ^ e0 <=? p)%Z then e0 else e0 - 1)%Z
      else (if (q <=? p * 2 ^ (- e0))%Z then e0 else e0 - 1)%Z in
    let e := Z.max (floor_log2 - 52) (-1074) in
    let m :=
      if (0 <=? e)%Z then round_half_even p (q * 2 ^ e)
      else round_half_even (p * 2 ^ (- e)) q in
    if ((971 <? e) || ((e =? 971) && (2 ^ 53 <=? m)))%Z then Infinity negative
    else Finite (if negative then (- m)%Z else m) e.

(** The longest prefix of [s] that is a decimal literal without exponent:
    its sign, its digits read as one integer [n], and the number [k] of
    digits after the point, so that the literal denotes [n / 10^k]. *)
Definition parse_unsigned (s : string) : option (N * nat) :=
  let '(ip, ni, s2) := read_digits s 0 0 in
  let integer_only := if (ni =? 0)%nat then None else Some (ip, O) in
  match s2 with
  | EmptyString => integer_only
  | String c s3 =>
      if decide (c = "."%char) then
        let '(n, nf, _) := read_digits s3 ip 0 in
        if ((ni =? 0) && (nf =? 0))%nat then None else Some (n, nf)
      else integer_only
  end.

Definition parse_decimal_prefix (s : string) : option (bool * N * nat) :=
  match s with
  | EmptyString => None
  | String c rest =>
      if decide (c = "-"%char) then
        option_map (fun '(n, k) => (true, n, k)) (parse_unsigned rest)
      else if decide (c = "+"%char) then
        option_map (fun '(n, k) => (false, n, k)) (parse_unsigned rest)
      else option_map (fun '(n, k) => (false, n, k)) (parse_unsigned s)
  end.

(** [parseFloat] on a string made of signs, digits and points (white
    space, exponents and the literal Infinity are not modelled). *)
Definition parseFloat (s : string) : number :=
  match parse_decimal_prefix s with
  | None => NaN
  | Some (negative, n, k) =>
      binary64_of_ratio negative (Z.of_N n) (10 ^ Z.of_nat k)
  end.

(** *** Arithmetic on numbers *)

(** The binary64 number nearest to [m * 2^e]. *)
Definition number_of_dyadic (m e : Z) : number :=
  if (0 <=? e)%Z then binary64_of_ratio (m <? 0)%Z (Z.abs m * 2 ^ e) 1
  else binary64_of_ratio (m <? 0)%Z (Z.abs m) (2 ^ (- e)).

(** [x + y] on numbers: the exact sum, rounded. *)
Definition number_add (x y : number) : number :=
  match x, y with
  | NaN, _ | _, NaN => NaN
  | Infinity a, Infinity b => if Bool.eqb a b then Infinity a else NaN
  | Infinity a, Finite _ _ => Infinity a
  | Finite _ _, Infinity b => Infinity b
  | Finite m1 e1, Finite m2 e2 =>
      let e := Z.min e1 e2 in
      number_of_dyadic (m1 * 2 ^ (e1 - e) + m2 * 2 ^ (e2 - e)) e
  end.

(** [x / n] for an array length [n]: the exact quotient, rounded. *)
Definition number_div_length (x : number) (n : nat) : number :=
  match x with
  | NaN => NaN
  | Infinity negative => Infinity negative
  | Finite m e =>
      if (n =? 0)%nat then (if (m =? 0)%Z then NaN else Infinity (m <? 0)%Z)
      else if (0 <=? e)%Z
      then binary64_of_ratio (m <? 0)%Z (Z.abs m * 2 ^ e) (Z.of_nat n)
      else binary64_of_ratio (m <? 0)%Z (Z.abs m) (Z.of_nat n * 2 ^ (- e))
  end.

(** The rationals that are binary64 numbers. *)
Definition representable (x : Q) : Prop :=
  exists m e, (Z.abs m < 2 ^ 53)%Z /\ (-1074 <= e <= 971)%Z /\
              (x == inject_Z m * Qpower 2 e)%Q.

End JS.

(** ** The position ledger *)

Module Ledger.

Definition address := N.

Definition MAX_UINT256 : N := 2 ^ 256 - 1.

Definition uint256 (x : N) : Prop := x <= MAX_UINT256.

Record Position := mkPosition {
  token : address;
  amount : N;
  entryPrice : N;
  timestamp : N;
  protocol : string;
  active : bool
}.

(** The value of a freshly allocated memory slot of type [Position]. *)
Definition zeroPosition : Position :=
  mkPosition 0 0 0 0 EmptyString false.

Inductive Event :=
| PositionAdded (user : address) (positionId : N) (token : address)
                (amount entryPrice : N) (protocol : string)
| PositionRemoved (user : address) (positionId : N)
| PositionUpdated (user : address) (positionId newAmount newEntryPrice : N).

(** The two storage mappings and the log of emitted events. *)
Record State := mkState {
  userPositions : gmap address (list Position);
  positionCount : gmap address N;
  events : list Event
}.

(** A Solidity mapping is total: a key never written reads as the zero
    value of its type. *)
Definition positionsOf (s : State) (user : address) : list Position :=
  default [] (userPositions s !! user).

Definition countOf (s : State) (user : address) : N :=
  default 0 (positionCount s !! user).

Definition genesis : State := mkState ∅ ∅ [].

Inductive Error :=
| Revert (reason : string)
| Panic (code : N).

Inductive result (A : Type) :=
| Ok (a : A)
| Err (e : Error).

Arguments Ok {A} a.
Arguments Err {A} e.

Definition bind {A B} (r : result A) (k : A -> result B) : result B :=
  match r with
  | Ok a => k a
  | Err e => Err e
  end.

Notation "'do' x <- r ; k" := (bind r (fun x => k))
  (at level 10, x name, r at level 100, k at level 200).
Notation "'check' r ; k" := (bind r (fun _ => k))
  (at level 10, r at level 100, k at level 200).

Definition require (c : bool) (reason : string) : result unit :=
  if c then Ok tt else Err (Revert reason).

Definition ARITHMETIC : N := 17.     (* Panic(0x11) *)
Definition OUT_OF_BOUNDS : N := 50.  (* Panic(0x32) *)

Definition checked_add (a b : N) : result N :=
  if a + b <=? MAX_UINT256 then Ok (a + b) else Err (Panic ARITHMETIC).

Definition checked_sub (a b : N) : result N :=
  if b <=? a then Ok (a - b) else Err (Panic ARITHMETIC).

(** [arr[i]] on a storage or memory array. *)
Definition index {A} (arr : list A) (i : N) : result A :=
  match arr !! N.to_nat i with
  | Some x => Ok x
  | None => Err (Panic OUT_OF_BOUNDS)
  end.

Definition set_amount_price (a e : N) (p : Position) : Position :=
  mkPosition (token p) a e (timestamp p) (protocol p) (active p).

Definition set_active (b : bool) (p : Position) : Position :=
  mkPosition (token p) (amount p) (entryPrice p) (timestamp p) (protocol p) b.

Definition store (s : State) (user : address) (ps : list Position) (c : N) : State :=
  mkState (<[user := ps]> (userPositions s)) (<[user := c]> (positionCount s))
          (events s).

Definition emit (ev : Event) (s : State) : State :=
  mkState (userPositions s) (positionCount s) (events s ++ [ev]).

(** modifier validPositionId *)
Definition validPositionId (s : State) (sender : address) (_positionId : N)
  : result unit :=
  check require (_positionId <? N.of_nat (length (positionsOf s sender)))
                "Invalid position ID" ;
  do p <- index (positionsOf s sender) _positionId ;
  require (active p) "Position is not active".

(** [now] is [block.timestamp] of the transaction.  The arguments are the
    decoded values; [send_addPosition] below has the range of the
    [uint256] parameters. *)
Definition addPosition (s : State) (sender : address) (now : N)
    (_token : address) (_amount _entryPrice : N) (_protocol : string)
  : result (State * N) :=
  let newPosition := mkPosition _token _amount _entryPrice now _protocol true in
  let arr := positionsOf s sender ++ [newPosition] in
  do positionId <- checked_sub (N.of_nat (length arr)) 1 ;
  do c <- checked_add (countOf s sender) 1 ;
  Ok (emit (PositionAdded sender positionId _token _amount _entryPrice _protocol)
           (store s sender arr c),
      positionId).

Definition removePosition (s : State) (sender : address) (_positionId : N)
  : result State :=
  check validPositionId s sender _positionId ;
  let arr := alter (set_active false) (N.to_nat _positionId) (positionsOf s sender) in
  do c <- checked_sub (countOf s sender) 1 ;
  Ok (emit (PositionRemoved sender _positionId) (store s sender arr c)).

Definition updatePosition (s : State) (sender : address)
    (_positionId _newAmount _newEntryPrice : N) : result State :=
  check validPositionId s sender _positionId ;
  let arr := alter (set_amount_price _newAmount _newEntryPrice)
                   (N.to_nat _positionId) (positionsOf s sender) in
  Ok (emit (PositionUpdated sender _positionId _newAmount _newEntryPrice)
           (store s sender arr (countOf s sender))).

Definition getPosition (s : State) (_user : address) (_positionId : N)
  : result Position :=
  check require (_positionId <? N.of_nat (length (positionsOf s _user)))
                "Invalid position ID" ;
  index (positionsOf s _user) _positionId.

(** The loop of [getAllPositions]: [ps] are the storage entries still to
    visit, [activePositions] the memory array, [currentIndex] the next
    free slot.  Writing past the end of the memory array panics. *)
Fixpoint getAllPositions_loop (ps : list Position)
    (activePositions : list Position) (currentIndex : nat)
  : result (list Position) :=
  match ps with
  | [] => Ok activePositions
  | p :: rest =>
      if active p then
        if (currentIndex <? length activePositions)%nat then
          getAllPositions_loop rest (<[currentIndex := p]> activePositions)
                               (S currentIndex)
        else Err (Panic OUT_OF_BOUNDS)
      else getAllPositions_loop rest activePositions currentIndex
  end.

Definition getAllPositions (s : State) (_user : address)
  : result (list Position) :=
  let activeCount := countOf s _user in
  let activePositions := replicate (N.to_nat activeCount) zeroPosition in
  getAllPositions_loop (positionsOf s _user) activePositions 0.

Definition getPositionCount (s : State) (_user : address) : N :=
  countOf s _user.

(** Transactions and their execution: a revert discards every change. *)
Inductive Tx :=
| AddPosition (sender : address) (now : N) (_token : address)
              (_amount _entryPrice : N) (_protocol : string)
| RemovePosition (sender : address) (_positionId : N)
| UpdatePosition (sender : address) (_positionId _newAmount _newEntryPrice : N).

Definition call (s : State) (tx : Tx) : result State :=
  match tx with
  | AddPosition sender now t a e pr =>
      do r <- addPosition s sender now t a e pr ; Ok (fst r)
  | RemovePosition sender i => removePosition s sender i
  | UpdatePosition sender i a e => updatePosition s sender i a e
  end.

Definition exec (s : State) (tx : Tx) : State :=
  match call s tx with
  | Ok s' => s'
  | Err _ => s
  end.

Definition run (txs : list Tx) (s : State) : State := fold_left exec txs s.

(** The positions of [ps] whose flag is set, in index order. *)
Definition activeOf (ps : list Position) : list Position := List.filter active ps.

(** The invariant linking the counter to the array. *)
Definition consistent (s : State) : Prop :=
  forall user, countOf s user = N.of_nat (length (activeOf (positionsOf s user))).

(** The life cycle of the position [(owner, i)]. *)
Inductive Status := Nonexistent | Active | Inactive.

Definition status (s : State) (owner : address) (i : nat) : Status :=
  match positionsOf s owner !! i with
  | None => Nonexistent
  | Some p => if active p then Active else Inactive
  end.

Definition transition (a b : Status) : bool :=
  match a, b with
  | Nonexistent, Nonexistent | Nonexistent, Active
  | Active, Active | Active, Inactive
  | Inactive, Inactive => true
  | _, _ => false
  end.

Definition sender_of (tx : Tx) : address :=
  match tx with
  | AddPosition sender _ _ _ _ _ => sender
  | RemovePosition sender _ => sender
  | UpdatePosition sender _ _ _ => sender
  end.

(** The number of [PositionAdded] and of [PositionRemoved] events that
    the log holds for [user]. *)
Definition added (user : address) (log : list Event) : N :=
  N.of_nat (length (List.filter
    (fun ev => match ev with
               | PositionAdded u _ _ _ _ _ => bool_decide (u = user)
               | _ => false
               end) log)).

Definition removed (user : address) (log : list Event) : N :=
  N.of_nat (length (List.filter
    (fun ev => match ev with
               | PositionRemoved u _ => bool_decide (u = user)
               | _ => false
               end) log)).

(** What the log says about [user] agrees with the storage. *)
Definition log_agrees (s : State) : Prop :=
  forall user,
    N.of_nat (length (positionsOf s user)) = added user (events s) /\
    countOf s user + removed user (events s) = added user (events s).

(** *** Calls from outside the chain *)

(** The arguments of a call travel ABI-encoded, a [uint256] parameter as
    one 256-bit word.  An integer outside [0, 2^256 - 1] has no encoding:
    the encoder refuses it ("value out-of-bounds") and nothing reaches
    the contract. *)
Inductive CallError :=
| ValueOutOfBounds (parameter : string)
| Reverted (e : Error).

Inductive CallResult (A : Type) :=
| Returned (a : A)
| Failed (e : CallError).

Arguments Returned {A} a.
Arguments Failed {A} e.

Definition fits_uint256 (x : Z) : bool :=
  (0 <=? x)%Z && (x <=? Z.of_N MAX_UINT256)%Z.

(** A call of [addPosition(address _token, uint256 _amount,
    uint256 _entryPrice, string _protocol)] with integer arguments: the
    arguments are encoded in the order of the parameters, then the
    function runs. *)
Definition send_addPosition (s : State) (sender : address) (now : N)
    (_token : address) (_amount _entryPrice : Z) (_protocol : string)
  : CallResult (State * N) :=
  if negb (fits_uint256 _amount) then Failed (ValueOutOfBounds "_amount")
  else if negb (fits_uint256 _entryPrice)
  then Failed (ValueOutOfBounds "_entryPrice")
  else
    match addPosition s sender now _token (Z.to_N _amount) (Z.to_N _entryPrice)
                      _protocol with
    | Ok r => Returned r
    | Err e => Failed (Reverted e)
    end.

(** The ledger after the call: a call that failed has changed nothing. *)
Definition after_addPosition (s : State) (sender : address) (now : N)
    (_token : address) (_amount _entryPrice : Z) (_protocol : string) : State :=
  match send_addPosition s sender now _token _amount _entryPrice _protocol with
  | Returned r => r.1
  | Failed _ => s
  end.

(** Sample data for the concrete checks below. *)
Definition alice : address := 1.
Definition bob : address := 2.
Definition weth : address := 3735928559.

Definition sample_txs : list Tx :=
  [ AddPosition alice 100 weth 5 2000 "Aave";
    AddPosition alice 101 weth 7 1900 "Uniswap";
    AddPosition bob 102 weth 1 2100 "Aave";
    RemovePosition alice 0 ].

End Ledger.

(** ** Token metadata cache of the chain access layer *)

Module Chain.

Record TokenInfo := mkTokenInfo {
  address : string;
  symbol : string;
  decimals : N;
  totalSupply : string
}.

(** A settled promise.  A rejection carries the [message] of the thrown
    [Error]. *)
Inductive outcome (A : Type) :=
| Resolved (a : A)
| Rejected (message : string).

Arguments Resolved {A} a.
Arguments Rejected {A} message.

(** What the three ERC-20 view calls of one token answer. *)
Record ERC20Reads := mkReads {
  read_symbol : outcome string;
  read_decimals : outcome N;
  read_totalSupply : outcome N
}.

Inductive Call :=
| call_symbol (rpcUrl tokenAddress : string)
| call_decimals (rpcUrl tokenAddress : string)
| call_totalSupply (rpcUrl tokenAddress : string).

(** A provider is identified by the RPC endpoint it was built from. *)
Record BlockchainService := mkService {
  providers : gmap string string;
  tokenCache : gmap string TokenInfo
}.

(** [Promise.all] on three promises: the tuple of the values, or a
    rejection.  Which rejection comes first in time is not modelled; the
    first in argument order is taken, which only affects the text after
    the prefix of the message built below. *)
Definition promise_all3 {A B C} (a : outcome A) (b : outcome B) (c : outcome C)
  : outcome (A * B * C) :=
  match a, b, c with
  | Resolved x, Resolved y, Resolved z => Resolved (x, y, z)
  | Rejected m, _, _ => Rejected m
  | _, Rejected m, _ => Rejected m
  | _, _, Rejected m => Rejected m
  end.

Definition is_rejected {A} (o : outcome A) : bool :=
  match o with
  | Resolved _ => false
  | Rejected _ => true
  end.

(** [(error as Error).message || String(error)] *)
Definition message_or_string (message : string) : string :=
  if decide (message = "") then "Error" else message.

Definition cacheKeyOf (network tokenAddress : string) : string :=
  network ++ ":" ++ tokenAddress.

Section GetTokenInfo.

(** The chains behind the RPC endpoints. *)
Variable rpc : string -> string -> ERC20Reads.

(** The result, the service afterwards, and the view calls issued. *)
Definition getTokenInfo (this : BlockchainService)
    (tokenAddress network : string)
  : outcome TokenInfo * BlockchainService * list Call :=
  let cacheKey := cacheKeyOf network tokenAddress in
  match tokenCache this !! cacheKey with
  | Some cachedToken => (Resolved cachedToken, this, [])
  | None =>
      match providers this !! network with
      | None =>
          (Rejected ("Provider not found for network: " ++ network), this, [])
      | Some provider =>
          let token := rpc provider tokenAddress in
          let calls := [ call_symbol provider tokenAddress;
                         call_decimals provider tokenAddress;
                         call_totalSupply provider tokenAddress ] in
          match promise_all3 (read_symbol token) (read_decimals token)
                             (read_totalSupply token) with
          | Resolved (symbol, decimals, totalSupply) =>
              let tokenInfo :=
                mkTokenInfo tokenAddress symbol decimals
                            (JS.N_toString totalSupply) in
              (Resolved tokenInfo,
               mkService (providers this)
                         (<[cacheKey := tokenInfo]> (tokenCache this)),
               calls)
          | Rejected message =>
              (Rejected ("Failed to fetch token info: "
                         ++ message_or_string message),
               this, calls)
          end
      end
  end.

End GetTokenInfo.

(** Sample data for the concrete checks below. *)
Definition sample_rpc (rpcUrl tokenAddress : string) : ERC20Reads :=
  if decide (tokenAddress = "0xdead")
  then mkReads (Resolved "BAD") (Rejected "call revert exception") (Resolved 0)
  else mkReads (Resolved "DAI") (Resolved 18) (Resolved 5000).

Definition sample_weth : TokenInfo := mkTokenInfo "0xc0ffee" "WETH" 18 "1000".

Definition sample_service : BlockchainService :=
  mkService {[ "ethereum" := "https://eth.example" ]}
            {[ "ethereum:0xc0ffee" := sample_weth ]}.

(** *** The other reads of the chain access layer *)

(** [process.env]: a variable that is unset is [None]. *)
Record ProcessEnv := mkEnv {
  ETH_RPC_URL : option string;
  ARB_RPC_URL : option string;
  OP_RPC_URL : option string;
  POLYGON_RPC_URL : option string
}.

(** The body of the constructor's loop: [if (rpcUrl) providers.set(...)]. *)
Definition set_provider (providers : gmap string string)
    (entry : string * option string) : gmap string string :=
  match entry.2 with
  | Some url => if decide (url = "") then providers
                else <[entry.1 := url]> providers
  | None => providers
  end.

(** The constructor: a provider for every network whose URL is set and
    not empty, and an empty token cache. *)
Definition new_BlockchainService (env : ProcessEnv) : BlockchainService :=
  let networks := [ ("ethereum", ETH_RPC_URL env); ("arbitrum", ARB_RPC_URL env);
                    ("optimism", OP_RPC_URL env); ("polygon", POLYGON_RPC_URL env) ] in
  mkService (fold_left set_provider networks ∅) ∅.

Record PoolReserves := mkReserves {
  reserve_token0 : string;
  reserve_token1 : string;
  reserve_timestamp : N
}.

Record PoolInfo := mkPoolInfo {
  pool_address : string;
  token0 : TokenInfo;
  token1 : TokenInfo;
  reserves : PoolReserves;
  pool_totalSupply : string
}.

(** [TokenInfo] extended with [balance]. *)
Record TokenBalance := mkTokenBalance {
  balance_address : string;
  balance_symbol : string;
  balance_decimals : N;
  balance_totalSupply : string;
  balance : string
}.

(** What the four view calls of one pool answer. *)
Record PoolReads := mkPoolReads {
  read_token0 : outcome string;
  read_token1 : outcome string;
  read_getReserves : outcome (N * N * N);
  read_pool_totalSupply : outcome N
}.

Inductive Read :=
| token_read (c : Call)
| pool_token0 (rpcUrl poolAddress : string)
| pool_token1 (rpcUrl poolAddress : string)
| pool_getReserves (rpcUrl poolAddress : string)
| pool_totalSupply_read (rpcUrl poolAddress : string)
| token_balanceOf (rpcUrl tokenAddress walletAddress : string).

Definition promise_all2 {A B} (a : outcome A) (b : outcome B) : outcome (A * B) :=
  match a, b with
  | Resolved x, Resolved y => Resolved (x, y)
  | Rejected m, _ => Rejected m
  | _, Rejected m => Rejected m
  end.

Definition promise_all4 {A B C D} (a : outcome A) (b : outcome B)
    (c : outcome C) (d : outcome D) : outcome (A * B * C * D) :=
  match a, b, c, d with
  | Resolved x, Resolved y, Resolved z, Resolved w => Resolved (x, y, z, w)
  | Rejected m, _, _, _ => Rejected m
  | _, Rejected m, _, _ => Rejected m
  | _, _, Rejected m, _ => Rejected m
  | _, _, _, Rejected m => Rejected m
  end.

Fixpoint promise_all {A} (ps : list (outcome A)) : outcome (list A) :=
  match ps with
  | [] => Resolved []
  | Resolved x :: rest =>
      match promise_all rest with
      | Resolved xs => Resolved (x :: xs)
      | Rejected m => Rejected m
      end
  | Rejected m :: _ => Rejected m
  end.

Section OtherReads.

Variable rpc : string -> string -> ERC20Reads.
Variable pool_rpc : string -> string -> PoolReads.
Variable balance_rpc : string -> string -> string -> outcome N.

(** The two token lookups are started together: both consult the cache
    before either of them stores, and each stores on its own success.
    The service returned is the one reached when every read that was
    started has settled. *)
Definition getPoolInfo (this : BlockchainService) (poolAddress network : string)
  : outcome PoolInfo * BlockchainService * list Read :=
  match providers this !! network with
  | None => (Rejected ("Provider not found for network: " ++ network), this, [])
  | Some provider =>
      let pool := pool_rpc provider poolAddress in
      let pool_calls := [ pool_token0 provider poolAddress;
                          pool_token1 provider poolAddress;
                          pool_getReserves provider poolAddress;
                          pool_totalSupply_read provider poolAddress ] in
      match promise_all4 (read_token0 pool) (read_token1 pool)
                         (read_getReserves pool) (read_pool_totalSupply pool) with
      | Rejected message =>
          (Rejected ("Failed to fetch pool info: " ++ message_or_string message),
           this, pool_calls)
      | Resolved (token0Address, token1Address, reserves, totalSupply) =>
          let '(r0, this0, calls0) := getTokenInfo rpc this token0Address network in
          let '(r1, this1, calls1) := getTokenInfo rpc this token1Address network in
          let this' := mkService (providers this)
                                 (tokenCache this0 ∪ tokenCache this1) in
          let calls := pool_calls ++ map token_read calls0 ++ map token_read calls1 in
          match promise_all2 r0 r1 with
          | Resolved (token0Info, token1Info) =>
              (Resolved
                 (mkPoolInfo poolAddress token0Info token1Info
                    (mkReserves (JS.N_toString reserves.1.1)
                                (JS.N_toString reserves.1.2) reserves.2)
                    (JS.N_toString totalSupply)),
               this', calls)
          | Rejected message =>
              (Rejected ("Failed to fetch pool info: "
                         ++ message_or_string message),
               this', calls)
          end
      end
  end.

(** One element of the [map] in [getWalletTokenBalances]. *)
Definition tokenBalance (this : BlockchainService) (provider : string)
    (walletAddress network tokenAddress : string)
  : outcome TokenBalance * BlockchainService * list Read :=
  let '(r, this', calls) := getTokenInfo rpc this tokenAddress network in
  (match promise_all2 (balance_rpc provider tokenAddress walletAddress) r with
   | Resolved (balance, tokenInfo) =>
       Resolved (mkTokenBalance (address tokenInfo) (symbol tokenInfo)
                                (decimals tokenInfo) (totalSupply tokenInfo)
                                (JS.N_toString balance))
   | Rejected m => Rejected m
   end,
   this',
   token_balanceOf provider tokenAddress walletAddress :: map token_read calls).

(** All elements are started together against the same cache. *)
Definition getWalletTokenBalances (this : BlockchainService)
    (walletAddress : string) (tokenAddresses : list string) (network : string)
  : outcome (list TokenBalance) * BlockchainService * list Read :=
  match providers this !! network with
  | None => (Rejected ("Provider not found for network: " ++ network), this, [])
  | Some provider =>
      let started :=
        map (tokenBalance this provider walletAddress network) tokenAddresses in
      let this' :=
        mkService (providers this)
          (fold_left (fun cache r => cache ∪ tokenCache r.1.2) started
                     (tokenCache this)) in
      let calls := concat (map (fun r => r.2) started) in
      match promise_all (map (fun r => r.1.1) started) with
      | Resolved balances => (Resolved balances, this', calls)
      | Rejected message =>
          (Rejected ("Failed to fetch wallet balances: "
                     ++ message_or_string message),
           this', calls)
      end
  end.

End OtherReads.

(** A network name without a colon, as the four names of the constructor
    are. *)
Fixpoint colon_free (s : string) : bool :=
  match s with
  | EmptyString => true
  | String c rest => if decide (c = ":"%char) then false else colon_free rest
  end.

(** Successive [getTokenInfo] calls, each on the service the previous one
    left. *)
Definition lookups (rpc : string -> string -> ERC20Reads)
    (requests : list (string * string)) (this : BlockchainService)
  : BlockchainService :=
  fold_left (fun s '(tokenAddress, network) =>
               (getTokenInfo rpc s tokenAddress network).1.2)
            requests this.

(** Networks with providers and the networks of the cache keys have no
    colon, and every cached record sits under the key of its own address. *)
Definition well_keyed (this : BlockchainService) : Prop :=
  (forall n url, providers this !! n = Some url -> colon_free n = true) /\
  (forall key t, tokenCache this !! key = Some t ->
     exists n, colon_free n = true /\ key = cacheKeyOf n (address t)).

Definition sample_env : ProcessEnv :=
  mkEnv (Some "https://eth.example") None (Some "") (Some "https://polygon.example").

Definition sample_pool_rpc (rpcUrl poolAddress : string) : PoolReads :=
  mkPoolReads (Resolved "0xc0ffee") (Resolved "0xbeef")
              (Resolved (700, 900, 1700000000)) (Resolved 42).

Definition sample_balance_rpc (rpcUrl tokenAddress walletAddress : string)
  : outcome N := Resolved 250.

(** The same pool and tokens at a later block: the reserves and the
    supply of the pool have moved, and so has the supply of the tokens. *)
Definition later_pool_rpc (rpcUrl poolAddress : string) : PoolReads :=
  mkPoolReads (Resolved "0xc0ffee") (Resolved "0xbeef")
              (Resolved (710, 880, 1700000600)) (Resolved 43).

Definition later_rpc (rpcUrl tokenAddress : string) : ERC20Reads :=
  mkReads (Resolved "DAI") (Resolved 18) (Resolved 6000).

End Chain.

(** ** Token amount formatting of the protocol adapter layer *)

Module Graph.
Import JS.

Local Open Scope Z_scope.

(** [BigInt(amount)] on a decimal numeral with an optional sign; [None]
    is the [SyntaxError] thrown on a malformed one.  The radix prefixes
    and surrounding white space that the constructor also accepts are
    not modelled. *)
Definition BigInt (s : string) : option Z :=
  match s with
  | EmptyString => Some 0
  | String c rest =>
      if decide (c = "-"%char) then
        match read_digits rest 0 0 with
        | (n, S _, EmptyString) => Some (- Z.of_N n)
        | _ => None
        end
      else if decide (c = "+"%char) then
        match read_digits rest 0 0 with
        | (n, S _, EmptyString) => Some (Z.of_N n)
        | _ => None
        end
      else
        match read_digits s 0 0 with
        | (n, S _, EmptyString) => Some (Z.of_N n)
        | _ => None
        end
  end.

(** The string that [formatTokenAmount] builds from the quotient and the
    remainder.  BigInt [/] and [%] truncate towards zero. *)
Definition formattedValue (value : Z) (decimals : nat) : string :=
  let divisor := 10 ^ Z.of_nat decimals in
  let beforeDecimal := Z.quot value divisor in
  let afterDecimal := Z.rem value divisor in
  let afterDecimalStr := padStart (BigInt_toString afterDecimal) decimals "0" in
  BigInt_toString beforeDecimal ++ "." ++ afterDecimalStr.

(** [None] is the exception of [BigInt(amount)]. *)
Definition formatTokenAmount (amount : string) (decimals : nat) : option number :=
  if decide (amount = "" \/ amount = "0") then Some (Finite 0 0)
  else
    match BigInt amount with
    | None => None
    | Some value => Some (parseFloat (formattedValue value decimals))
    end.

(** *** Dispatch on the protocol name *)

Definition subgraphs : list (string * string) :=
  [ ("uniswap", "https://api.thegraph.com/subgraphs/name/uniswap/uniswap-v3");
    ("aave", "https://api.thegraph.com/subgraphs/name/aave/protocol-v3");
    ("compound", "https://api.thegraph.com/subgraphs/name/graphprotocol/compound-v2");
    ("balancer", "https://api.thegraph.com/subgraphs/name/balancer-labs/balancer-v2");
    ("curve", "https://api.thegraph.com/subgraphs/name/curvefi/curve") ].

Definition set_client (clients : gmap string string) (entry : string * string)
  : gmap string string :=
  <[entry.1 := entry.2]> clients.

(** The constructor of [GraphService]: one client per subgraph, a client
    being represented by its uri. *)
Definition new_GraphService : gmap string string :=
  fold_left set_client subgraphs ∅.

Inductive Adapter := Uniswap | Aave | Compound | Balancer | Curve.

(** What a dispatching method does with a protocol name: it throws, or
    it hands the client to the query of one adapter. *)
Inductive Dispatch :=
| Throws (message : string)
| Queries (adapter : Adapter) (client : string).

Definition getProtocolMetrics (clients : gmap string string) (protocol : string)
  : Dispatch :=
  match clients !! protocol with
  | None => Throws ("No client found for protocol: " ++ protocol)
  | Some client =>
      if decide (protocol = "uniswap") then Queries Uniswap client
      else if decide (protocol = "aave") then Queries Aave client
      else if decide (protocol = "compound") then Queries Compound client
      else if decide (protocol = "balancer") then Queries Balancer client
      else if decide (protocol = "curve") then Queries Curve client
      else Throws ("Unsupported protocol: " ++ protocol)
  end.

Definition getUserPositions (clients : gmap string string) (protocol : string)
  : Dispatch :=
  match clients !! protocol with
  | None => Throws ("No client found for protocol: " ++ protocol)
  | Some client =>
      if decide (protocol = "uniswap") then Queries Uniswap client
      else if decide (protocol = "aave") then Queries Aave client
      else if decide (protocol = "compound") then Queries Compound client
      else if decide (protocol = "balancer") then Queries Balancer client
      else if decide (protocol = "curve") then Queries Curve client
      else Throws ("Unsupported protocol: " ++ protocol)
  end.

Definition getTokenMetrics (clients : gmap string string) (protocol : string)
  : Dispatch :=
  match clients !! protocol with
  | None => Throws ("No client found for protocol: " ++ protocol)
  | Some client =>
      if decide (protocol = "uniswap") then Queries Uniswap client
      else if decide (protocol = "aave") then Queries Aave client
      else if decide (protocol = "compound") then Queries Compound client
      else Throws ("Token metrics not supported for protocol: " ++ protocol)
  end.

End Graph.

(** ** Risk score of the portfolio view *)

Module Portfolio.
Import JS.

Local Open Scope Q_scope.

(** An optional field that is absent ([undefined]) is [None]. *)
Record Position := mkPosition {
  id : string;
  protocol : string;
  type : string;
  asset : string;
  value : number;
  chainId : N;
  chainName : string;
  apr : option number;
  risk : option number;
  startDate : N
}.

(** [x || 0] on an optional number: [undefined], [0] and [NaN] are
    falsy. *)
Definition or_zero (x : option number) : number :=
  match x with
  | Some (Finite m e) => if (m =? 0)%Z then Finite 0 0 else Finite m e
  | Some (Infinity negative) => Infinity negative
  | Some NaN | None => Finite 0 0
  end.

Definition calculateRiskScore (positions : list Position) : number :=
  if (length positions =? 0)%nat then Finite 0 0
  else
    let totalRisk :=
      fold_left (fun sum pos => number_add sum (or_zero (risk pos)))
                positions (Finite 0 0) in
    number_div_length totalRisk (length positions).

(** The wording of the specification, over exact rationals: the risk
    figure a position contributes (0 when it has none), and the
    arithmetic mean of a list of figures. *)
Definition risk_figure (pos : Position) : Q :=
  match risk pos with
  | Some (Finite m e) => inject_Z m * 2 ^ e
  | _ => 0
  end.

Fixpoint total (xs : list Q) : Q :=
  match xs with
  | [] => 0
  | x :: rest => x + total rest
  end.

Definition arithmetic_mean (xs : list Q) : Q :=
  total xs / inject_Z (Z.of_nat (length xs)).

(** The sums [acc + x1], [acc + x1 + x2], ... that a left-to-right
    addition of [xs] onto [acc] goes through. *)
Fixpoint running_totals (acc : Q) (xs : list Q) : list Q :=
  match xs with
  | [] => []
  | x :: rest => (acc + x) :: running_totals (acc + x) rest
  end.

(** *** Filters and summary fields of the portfolio hook *)

(** [String.prototype.includes]. *)
Fixpoint includes (s searchString : string) : bool :=
  String.prefix searchString s ||
  match s with
  | EmptyString => false
  | String _ rest => includes rest searchString
  end.

(** [filterPositions] of the hook, over the positions it holds.  An
    argument left out is [None]; [0] and the empty string are falsy. *)
Definition filterPositions (positions : list Position)
    (chainId : option N) (protocol asset : option string) : list Position :=
  if (length positions =? 0)%nat then []
  else
    List.filter (fun position =>
      let chainMatch :=
        match chainId with
        | None => true
        | Some c => (c =? 0)%N || (Portfolio.chainId position =? c)%N
        end in
      let protocolMatch :=
        match protocol with
        | None => true
        | Some p => bool_decide (p = "") || bool_decide (Portfolio.protocol position = p)
        end in
      let assetMatch :=
        match asset with
        | None => true
        | Some a => bool_decide (a = "") || includes (Portfolio.asset position) a
        end in
      chainMatch && protocolMatch && assetMatch) positions.

(** [Array.from(new Set(xs))]: the distinct elements of [xs] in the order
    of their first occurrence. *)
Definition Set_add (seen : list string) (x : string) : list string :=
  if decide (x ∈ seen) then seen else seen ++ [x].

Definition Array_from_Set (xs : list string) : list string :=
  fold_left Set_add xs [].

(** The [networks] and [activePositions] fields that [fetchPortfolioData]
    derives from the positions fetched. *)
Definition networks (positionsResponse : list Position) : list string :=
  Array_from_Set (map chainName positionsResponse).

Definition activePositions (positionsResponse : list Position) : nat :=
  length positionsResponse.

Definition with_risk (r : option number) : Position :=
  mkPosition "1" "Aave" "lending" "WETH" (Finite 2000 0) 1 "Ethereum" None r 0.

(** 0.1 as a binary64 number. *)
Definition one_tenth : number := Finite 3602879701896397 (-55).

Definition sample_positions : list Position :=
  [ with_risk (Some (Finite 3 0)); with_risk None; with_risk (Some (Finite 6 0)) ].

End Portfolio.

(** ** The client binding to the ledger contract *)

Module Client.
Import Chain.

(** [import.meta.env]: a variable that is unset is [None]. *)
Record ImportMetaEnv := mkMetaEnv {
  VITE_CONTRACT_ADDRESS_1 : option string;
  VITE_CONTRACT_ADDRESS_10 : option string;
  VITE_CONTRACT_ADDRESS_137 : option string;
  VITE_CONTRACT_ADDRESS_42161 : option string;
  DEV : bool
}.

(** [if (v) addresses[key] = v]: an empty string is falsy. *)
Definition set_address (key : string) (v : option string)
    (addresses : gmap string string) : gmap string string :=
  match v with
  | Some a => if decide (a = "") then addresses else <[key := a]> addresses
  | None => addresses
  end.

Definition getContractAddresses (env : ImportMetaEnv) : gmap string string :=
  let addresses := ∅ in
  let addresses := set_address "1" (VITE_CONTRACT_ADDRESS_1 env) addresses in
  let addresses := set_address "10" (VITE_CONTRACT_ADDRESS_10 env) addresses in
  let addresses := set_address "137" (VITE_CONTRACT_ADDRESS_137 env) addresses in
  let addresses := set_address "42161" (VITE_CONTRACT_ADDRESS_42161 env) addresses in
  addresses.

Definition FALLBACK_DEV_ADDRESS : string :=
  "0x1234567890123456789012345678901234567890".

Definition fallbackAddresses : gmap string string :=
  <["1" := FALLBACK_DEV_ADDRESS]>
    (<["10" := FALLBACK_DEV_ADDRESS]>
       (<["137" := FALLBACK_DEV_ADDRESS]>
          (<["42161" := FALLBACK_DEV_ADDRESS]> ∅))).

(** The service: the signer taken from the provider, and the address the
    contract object is bound to. *)
Record ContractService := mkContractService {
  provider : option string;
  signer : option string;
  contract : option string
}.

Definition new_ContractService : ContractService :=
  mkContractService None None None.

Definition initialize (this : ContractService) (web3Provider : string)
  : ContractService :=
  mkContractService (Some web3Provider) (Some web3Provider) (contract this).

(** [chainId] is the chain number whose decimal string the callers pass
    ([chainId.toString()]).  The result, the service afterwards, and the
    warnings written to the console. *)
Definition connectToContract (env : ImportMetaEnv) (this : ContractService)
    (chainId : N) : outcome string * ContractService * list string :=
  let key := JS.N_toString chainId in
  let connected address :=
    mkContractService (provider this) (signer this) (Some address) in
  match signer this with
  | None =>
      (Rejected "Provider not initialized. Call initialize() first.", this, [])
  | Some _ =>
      match getContractAddresses env !! key with
      | Some address => (Resolved address, connected address, [])
      | None =>
          if DEV env then
            let warnings :=
              [ ("WARNING: Using development placeholder address for chain "
                 ++ key ++ ". Set VITE_CONTRACT_ADDRESS_" ++ key
                 ++ " environment variable for production.")%string ] in
            match fallbackAddresses !! key with
            | Some address => (Resolved address, connected address, warnings)
            | None =>
                (Rejected ("Contract not deployed on chain " ++ key),
                 this, warnings)
            end
          else
            (Rejected ("Contract not deployed on chain " ++ key
                       ++ ". Please set the VITE_CONTRACT_ADDRESS_" ++ key
                       ++ " environment variable."),
             this, [])
      end
  end.

Definition isConnected (this : ContractService) : bool :=
  match contract this with
  | Some _ => true
  | None => false
  end.

Definition getContract (this : ContractService) : outcome string :=
  match contract this with
  | Some c => Resolved c
  | None => Rejected "Contract not connected. Call connectToContract() first."
  end.

(** The environment variable that configures a chain. *)
Definition configured (env : ImportMetaEnv) (chainId : N) : option string :=
  if chainId =? 1 then VITE_CONTRACT_ADDRESS_1 env
  else if chainId =? 10 then VITE_CONTRACT_ADDRESS_10 env
  else if chainId =? 137 then VITE_CONTRACT_ADDRESS_137 env
  else if chainId =? 42161 then VITE_CONTRACT_ADDRESS_42161 env
  else None.

Definition supported (chainId : N) : Prop :=
  chainId = 1 \/ chainId = 10 \/ chainId = 137 \/ chainId = 42161.

(** A position as the client shows it. *)
Record Position := mkPosition {
  token : string;
  protocol : string;
  amount : string;
  entryTimestamp : N;
  entryPrice : option string;
  active : option bool
}.

Section Reads.

(** What the ethers library does is taken as given: the formatting of
    amounts and addresses, [BigNumber.toNumber], the decoding of a
    revert, and the ledger that lives at a contract address. *)
Variable formatEther : N -> string.
Variable formatUnits : N -> N -> string.
Variable toNumber : N -> outcome N.
Variable address_string : Ledger.address -> string.
Variable parse_address : string -> Ledger.address.
Variable call_exception : Ledger.Error -> string.
Variable ledger_at : string -> Ledger.State.

Definition transform (pos : Ledger.Position) : outcome Position :=
  match toNumber (Ledger.timestamp pos) with
  | Resolved ts =>
      Resolved (mkPosition (address_string (Ledger.token pos))
                           (Ledger.protocol pos)
                           (formatEther (Ledger.amount pos))
                           ts
                           (Some (formatUnits (Ledger.entryPrice pos) 18))
                           (Some (Ledger.active pos)))
  | Rejected m => Rejected m
  end.

Definition getUserPositions (this : ContractService) (userAddress : string)
  : outcome (list Position) :=
  match contract this with
  | None => Rejected "Contract not connected"
  | Some c =>
      match Ledger.getAllPositions (ledger_at c) (parse_address userAddress) with
      | Ledger.Ok positions => promise_all (map transform positions)
      | Ledger.Err e => Rejected (call_exception e)
      end
  end.

(** [filter(position => position.active)]: an absent flag is falsy. *)
Definition getActivePositions (this : ContractService) (userAddress : string)
  : outcome (list Position) :=
  match getUserPositions this userAddress with
  | Resolved allPositions =>
      Resolved (List.filter (fun position => default false (active position))
                            allPositions)
  | Rejected m => Rejected m
  end.

End Reads.

(** Sample data for the concrete checks below. *)
Definition production : ImportMetaEnv :=
  mkMetaEnv (Some "0xAAAA") None (Some "") None false.

Definition development : ImportMetaEnv :=
  mkMetaEnv (Some "0xAAAA") None (Some "") None true.

Definition ready : ContractService := initialize new_ContractService "metamask".

End Client.

Module LedgerProofs.
Import Ledger.

Lemma positionsOf_store s u ps c ev v :
  positionsOf (emit ev (store s u ps c)) v
  = if decide (u = v) then ps else positionsOf s v.
Proof.
  unfold positionsOf, emit, store; simpl.
  rewrite lookup_insert. by destruct (decide (u = v)).
Qed.

Lemma countOf_store s u ps c ev v :
  countOf (emit ev (store s u ps c)) v
  = if decide (u = v) then c else countOf s v.
Proof.
  unfold countOf, emit, store; simpl.
  rewrite lookup_insert. by destruct (decide (u = v)).
Qed.

Lemma activeOf_app ps qs : activeOf (ps ++ qs) = activeOf ps ++ activeOf qs.
Proof. apply List.filter_app. Qed.

(** The loop fills the free slots of the memory array from the left: with
    [done] already written and [n] free slots, it succeeds exactly when
    the remaining active entries fit. *)
Lemma getAllPositions_loop_spec ps : forall done n,
  getAllPositions_loop ps (done ++ replicate n zeroPosition) (length done) =
  if (length (activeOf ps) <=? n)%nat
  then Ok (done ++ activeOf ps
                ++ replicate (n - length (activeOf ps)) zeroPosition)
  else Err (Panic OUT_OF_BOUNDS).
Proof.
  induction ps as [|p ps IH]; intros done n; simpl.
  - by rewrite Nat.sub_0_r.
  - destruct (active p) eqn:Hp; simpl; [|apply IH].
    rewrite length_app, length_replicate.
    destruct n as [|n]; simpl.
    + rewrite Nat.add_0_r, Nat.ltb_irrefl. done.
    + assert ((length done <? length done + S n)%nat = true) as ->
        by (apply Nat.ltb_lt; lia).
      replace (<[length done:=p]> (done ++ zeroPosition :: replicate n zeroPosition))
        with ((done ++ [p]) ++ replicate n zeroPosition).
      * replace (S (length done)) with (length (done ++ [p]))
          by (rewrite length_app; simpl; lia).
        rewrite IH. rewrite <- app_assoc. done.
      * rewrite insert_app_r_alt by lia.
        rewrite Nat.sub_diag. simpl. by rewrite <- app_assoc.
Qed.

Lemma getAllPositions_consistent s user :
  consistent s -> getAllPositions s user = Ok (activeOf (positionsOf s user)).
Proof.
  intros Hc. unfold getAllPositions.
  pose proof (getAllPositions_loop_spec (positionsOf s user) []
                (N.to_nat (countOf s user))) as H.
  simpl in H. rewrite H, (Hc user), Nat2N.id, Nat.leb_refl, Nat.sub_diag.
  simpl. by rewrite app_nil_r.
Qed.

Lemma activeOf_alter_keep f i ps :
  (forall p, active (f p) = active p) ->
  length (activeOf (alter f i ps)) = length (activeOf ps).
Proof.
  intros Hf. revert i. induction ps as [|p ps IH]; intros [|i]; simpl; try done.
  - rewrite Hf. destruct (active p); simpl; done.
  - specialize (IH i). destruct (active p); simpl; [f_equal|]; exact IH.
Qed.

Lemma activeOf_alter_deactivate i ps p :
  ps !! i = Some p -> active p = true ->
  S (length (activeOf (alter (set_active false) i ps))) = length (activeOf ps).
Proof.
  revert i. induction ps as [|q ps IH]; intros [|i]; simpl; try done.
  - intros [= ->] ->. done.
  - intros Hi Hp. specialize (IH i Hi Hp).
    destruct (active q); simpl; [f_equal|]; exact IH.
Qed.

Lemma validPositionId_Ok s sender i :
  validPositionId s sender i = Ok tt <->
  exists p, positionsOf s sender !! N.to_nat i = Some p /\ active p = true.
Proof.
  unfold validPositionId, require, index, bind.
  destruct (N.ltb_spec i (N.of_nat (length (positionsOf s sender)))) as [Hlt|Hge].
  - destruct (positionsOf s sender !! N.to_nat i) as [p|] eqn:Hp.
    + destruct (active p) eqn:Ha; split; try done; eauto.
      intros (q & [= <-] & Hq). congruence.
    + split; [done|]. intros (q & ? & _). done.
  - split; [done|]. intros (p & Hp & _).
    apply lookup_lt_Some in Hp. lia.
Qed.

Lemma validPositionId_unit s sender i (u : unit) :
  validPositionId s sender i = Ok u -> validPositionId s sender i = Ok tt.
Proof. by destruct u. Qed.

Lemma addPosition_inv s sender now t a e pr r :
  addPosition s sender now t a e pr = r ->
  let ps := positionsOf s sender in
  (countOf s sender < MAX_UINT256 /\
   r = Ok (emit (PositionAdded sender (N.of_nat (length ps)) t a e pr)
                (store s sender (ps ++ [mkPosition t a e now pr true])
                       (countOf s sender + 1)),
           N.of_nat (length ps))) \/
  (MAX_UINT256 <= countOf s sender /\ r = Err (Panic ARITHMETIC)).
Proof.
  intros <-. unfold addPosition, checked_sub, checked_add, bind.
  rewrite length_app; simpl.
  destruct (N.leb_spec 1 (N.of_nat (length (positionsOf s sender) + 1)));
    [|lia].
  destruct (N.leb_spec (countOf s sender + 1) MAX_UINT256).
  - left. split; [lia|].
    replace (N.of_nat (length (positionsOf s sender) + 1) - 1)
      with (N.of_nat (length (positionsOf s sender))) by lia.
    done.
  - right. split; [lia|done].
Qed.

Lemma removePosition_inv s sender i s' :
  removePosition s sender i = Ok s' ->
  exists p, positionsOf s sender !! N.to_nat i = Some p /\ active p = true /\
    1 <= countOf s sender /\
    s' = emit (PositionRemoved sender i)
           (store s sender
              (alter (set_active false) (N.to_nat i) (positionsOf s sender))
              (countOf s sender - 1)).
Proof.
  unfold removePosition, bind.
  destruct (validPositionId s sender i) as [u|] eqn:Hv; [|done].
  apply validPositionId_unit, validPositionId_Ok in Hv as (p & Hp & Ha).
  unfold checked_sub.
  destruct (N.leb_spec 1 (countOf s sender)); [|done].
  intros [= <-]. eauto.
Qed.

Lemma updatePosition_inv s sender i a e s' :
  updatePosition s sender i a e = Ok s' ->
  exists p, positionsOf s sender !! N.to_nat i = Some p /\ active p = true /\
    s' = emit (PositionUpdated sender i a e)
           (store s sender
              (alter (set_amount_price a e) (N.to_nat i) (positionsOf s sender))
              (countOf s sender)).
Proof.
  unfold updatePosition, bind.
  destruct (validPositionId s sender i) as [u|] eqn:Hv; [|done].
  apply validPositionId_unit, validPositionId_Ok in Hv as (p & Hp & Ha).
  intros [= <-]. eauto.
Qed.

(** What a transaction does to one owner's array and counter. *)
Lemma call_inv s tx s' :
  call s tx = Ok s' ->
  match tx with
  | AddPosition sender now t a e pr =>
      s' = emit (PositionAdded sender (N.of_nat (length (positionsOf s sender)))
                               t a e pr)
             (store s sender
                (positionsOf s sender ++ [mkPosition t a e now pr true])
                (countOf s sender + 1))
  | RemovePosition sender i =>
      exists p, positionsOf s sender !! N.to_nat i = Some p /\ active p = true /\
        1 <= countOf s sender /\
        s' = emit (PositionRemoved sender i)
               (store s sender
                  (alter (set_active false) (N.to_nat i) (positionsOf s sender))
                  (countOf s sender - 1))
  | UpdatePosition sender i a e =>
      exists p, positionsOf s sender !! N.to_nat i = Some p /\ active p = true /\
        s' = emit (PositionUpdated sender i a e)
               (store s sender
                  (alter (set_amount_price a e) (N.to_nat i) (positionsOf s sender))
                  (countOf s sender))
  end.
Proof.
  destruct tx as [sender now t a e pr|sender i|sender i a e]; simpl.
  - destruct (addPosition_inv s sender now t a e pr _ eq_refl)
      as [[_ ->]|[_ ->]]; simpl; [|done]. by intros [= <-].
  - apply removePosition_inv.
  - apply updatePosition_inv.
Qed.

Lemma consistent_genesis : consistent genesis.
Proof. intros user. reflexivity. Qed.

Lemma consistent_exec s tx : consistent s -> consistent (exec s tx).
Proof.
  intros Hc. unfold exec.
  destruct (call s tx) as [s'|] eqn:Hcall; [|done].
  apply call_inv in Hcall. intros user.
  destruct tx as [sender now t a e pr|sender i|sender i a e].
  - subst s'. rewrite positionsOf_store, countOf_store.
    destruct (decide (sender = user)) as [->|]; [|apply Hc].
    rewrite activeOf_app, length_app, (Hc user). simpl. lia.
  - destruct Hcall as (p & Hp & Ha & Hpos & ->).
    rewrite positionsOf_store, countOf_store.
    destruct (decide (sender = user)) as [->|]; [|apply Hc].
    pose proof (activeOf_alter_deactivate _ _ _ Hp Ha) as Hlen.
    rewrite (Hc user) in *. lia.
  - destruct Hcall as (p & Hp & Ha & ->).
    rewrite positionsOf_store, countOf_store.
    destruct (decide (sender = user)) as [->|]; [|apply Hc].
    rewrite activeOf_alter_keep by done. apply Hc.
Qed.

Lemma consistent_run txs : forall s, consistent s -> consistent (run txs s).
Proof.
  induction txs as [|tx txs IH]; intros s Hc; simpl; [done|].
  apply IH, consistent_exec, Hc.
Qed.

Lemma run_app txs1 txs2 s : run (txs1 ++ txs2) s = run txs2 (run txs1 s).
Proof. apply fold_left_app. Qed.

Lemma transition_refl a : transition a a = true.
Proof. by destruct a. Qed.

(** One transaction moves a position along the arrows
    nonexistent -> active -> inactive only. *)
Lemma status_step s tx owner i :
  transition (status s owner i) (status (exec s tx) owner i) = true.
Proof.
  unfold exec.
  destruct (call s tx) as [s'|] eqn:Hcall; [|apply transition_refl].
  apply call_inv in Hcall. unfold status.
  destruct tx as [sender now t a e pr|sender j|sender j a e].
  - subst s'. rewrite positionsOf_store.
    destruct (decide (sender = owner)) as [->|]; [|apply transition_refl].
    destruct (positionsOf s owner !! i) as [p|] eqn:Hp.
    + rewrite (lookup_app_l_Some _ _ _ _ Hp). by destruct (active p).
    + apply lookup_ge_None in Hp. rewrite lookup_app_r by done.
      by destruct (i - length (positionsOf s owner))%nat as [|[|k]].
  - destruct Hcall as (p & Hp & Ha & _ & ->). rewrite positionsOf_store.
    destruct (decide (sender = owner)) as [->|]; [|apply transition_refl].
    destruct (decide (N.to_nat j = i)) as [<-|Hne].
    + rewrite list_lookup_alter_eq, Hp. simpl. by rewrite Ha.
    + rewrite list_lookup_alter_ne by done. apply transition_refl.
  - destruct Hcall as (p & Hp & Ha & ->). rewrite positionsOf_store.
    destruct (decide (sender = owner)) as [->|]; [|apply transition_refl].
    destruct (decide (N.to_nat j = i)) as [<-|Hne].
    + rewrite list_lookup_alter_eq, Hp. simpl. by rewrite Ha.
    + rewrite list_lookup_alter_ne by done. apply transition_refl.
Qed.

(** A soft-deleted record is frozen: no transaction touches it. *)
Lemma inactive_frozen_exec s tx owner i p :
  positionsOf s owner !! i = Some p -> active p = false ->
  positionsOf (exec s tx) owner !! i = Some p.
Proof.
  intros Hp Ha. unfold exec.
  destruct (call s tx) as [s'|] eqn:Hcall; [|done].
  apply call_inv in Hcall.
  destruct tx as [sender now t a e pr|sender j|sender j a e].
  - subst s'. rewrite positionsOf_store.
    destruct (decide (sender = owner)) as [->|]; [|done].
    by apply lookup_app_l_Some.
  - destruct Hcall as (q & Hq & Hqa & _ & ->). rewrite positionsOf_store.
    destruct (decide (sender = owner)) as [->|]; [|done].
    destruct (decide (N.to_nat j = i)) as [<-|Hne]; [congruence|].
    by rewrite list_lookup_alter_ne.
  - destruct Hcall as (q & Hq & Hqa & ->). rewrite positionsOf_store.
    destruct (decide (sender = owner)) as [->|]; [|done].
    destruct (decide (N.to_nat j = i)) as [<-|Hne]; [congruence|].
    by rewrite list_lookup_alter_ne.
Qed.

Lemma inactive_frozen_run txs : forall s owner i p,
  positionsOf s owner !! i = Some p -> active p = false ->
  positionsOf (run txs s) owner !! i = Some p.
Proof.
  induction txs as [|tx txs IH]; intros s owner i p Hp Ha; simpl; [done|].
  apply IH; [|done]. by apply inactive_frozen_exec.
Qed.

Lemma activeOf_all_active ps : Forall (fun q => active q = true) (activeOf ps).
Proof.
  apply Forall_forall. intros q Hq.
  apply list_elem_of_In, List.filter_In in Hq. tauto.
Qed.

(** C1: after any sequence of ledger transactions, [getPositionCount]
    of an owner is the number of that owner's positions whose flag is
    set, and [getAllPositions] returns an array of exactly that length. *)
Theorem count_matches_active (txs : list Tx) (owner : address) :
  let s := run txs genesis in
  getPositionCount s owner = N.of_nat (length (activeOf (positionsOf s owner))) /\
  exists l, getAllPositions s owner = Ok l /\
            getPositionCount s owner = N.of_nat (length l).
Proof.
  intros s.
  assert (consistent s) as Hc by apply consistent_run, consistent_genesis.
  split; [apply Hc|].
  exists (activeOf (positionsOf s owner)).
  split; [by apply getAllPositions_consistent | apply Hc].
Qed.

(** C3: after any sequence of ledger transactions, [getAllPositions]
    returns exactly the owner's entries whose flag is set, in index order
    and without gaps: the filter of the stored array. *)
Theorem getAllPositions_active_in_order (txs : list Tx) (owner : address) :
  getAllPositions (run txs genesis) owner =
  Ok (List.filter active (positionsOf (run txs genesis) owner)).
Proof.
  apply getAllPositions_consistent, consistent_run, consistent_genesis.
Qed.

(** The index in the returned array is not the ledger index: after the
    sample transactions and one more position, the entry at ledger index
    2 is returned at index 1. *)
Example getAllPositions_renumbers :
  let s := run (sample_txs ++ [AddPosition alice 104 weth 3 1800 "Curve"]) genesis in
  positionsOf s alice =
    [ mkPosition weth 5 2000 100 "Aave" false;
      mkPosition weth 7 1900 101 "Uniswap" true;
      mkPosition weth 3 1800 104 "Curve" true ] /\
  getAllPositions s alice =
    Ok [ mkPosition weth 7 1900 101 "Uniswap" true;
         mkPosition weth 3 1800 104 "Curve" true ] /\
  getPositionCount s alice = 2.
Proof. repeat split. Qed.

(** C2: a position whose flag is false stays as it is under every later
    sequence of transactions: its status remains [Inactive], and
    [getAllPositions], which returns flagged entries only, does not
    contain it. *)
Theorem inactive_is_terminal (before after : list Tx) (owner : address)
    (i : nat) (p : Position) :
  positionsOf (run before genesis) owner !! i = Some p ->
  active p = false ->
  let s' := run after (run before genesis) in
  positionsOf s' owner !! i = Some p /\
  status s' owner i = Inactive /\
  (forall tx, transition (status s' owner i) (status (exec s' tx) owner i) = true) /\
  exists l, getAllPositions s' owner = Ok l /\
            Forall (fun q => active q = true) l /\ p ∉ l.
Proof.
  intros Hp Ha s'.
  assert (positionsOf s' owner !! i = Some p) as Hp'
    by by apply inactive_frozen_run.
  split; [done|]. split; [unfold status; by rewrite Hp', Ha|].
  split; [intros tx; apply status_step|].
  exists (activeOf (positionsOf s' owner)). split.
  - apply getAllPositions_consistent.
    unfold s'. rewrite <- run_app. apply consistent_run, consistent_genesis.
  - split; [apply activeOf_all_active|].
    intros Hin. apply list_elem_of_In, List.filter_In in Hin. destruct Hin. congruence.
Qed.

Lemma inactive_is_terminal_witness :
  let before := sample_txs in
  let after := [ UpdatePosition alice 0 9 9; AddPosition alice 103 weth 5 2000 "Aave";
                 RemovePosition alice 0; RemovePosition alice 1 ] in
  let p := mkPosition weth 5 2000 100 "Aave" false in
  positionsOf (run before genesis) alice !! 0%nat = Some p /\
  active p = false /\
  positionsOf (run after (run before genesis)) alice !! 0%nat = Some p /\
  status (run after (run before genesis)) alice 0 = Inactive.
Proof.
  intros before after p.
  split; [reflexivity|]. split; [reflexivity|].
  pose proof (inactive_is_terminal before after alice 0%nat p eq_refl eq_refl)
    as (H1 & H2 & _).
  exact (conj H1 H2).
Defined.

(** C7: [removePosition] reverts with "Invalid position ID" at or beyond
    the end of the sender's array and with "Position is not active" on
    an entry whose flag is false; a reverted call changes nothing; a
    successful call clears the flag of that entry and keeps its amount,
    entry price and other fields, leaves every other entry and owner
    alone, and lowers the sender's counter by one. *)
Theorem removePosition_spec (s : State) (sender : address) (i : N) :
  let ps := positionsOf s sender in
  (N.of_nat (length ps) <= i ->
     removePosition s sender i = Err (Revert "Invalid position ID")) /\
  (forall p, ps !! N.to_nat i = Some p -> active p = false ->
     removePosition s sender i = Err (Revert "Position is not active")) /\
  (forall e, removePosition s sender i = Err e ->
     exec s (RemovePosition sender i) = s) /\
  (forall p, ps !! N.to_nat i = Some p -> active p = true ->
     1 <= countOf s sender ->
     exists s', removePosition s sender i = Ok s') /\
  (forall s', removePosition s sender i = Ok s' ->
     exists p, ps !! N.to_nat i = Some p /\ active p = true /\
       positionsOf s' sender =
         <[N.to_nat i := mkPosition (token p) (amount p) (entryPrice p)
                                    (timestamp p) (protocol p) false]> ps /\
       getPositionCount s' sender = getPositionCount s sender - 1 /\
       forall u, u <> sender ->
         positionsOf s' u = positionsOf s u /\
         getPositionCount s' u = getPositionCount s u).
Proof.
  intros ps. subst ps. repeat split.
  - intros Hge. unfold removePosition, validPositionId, require, bind.
    destruct (N.ltb_spec i (N.of_nat (length (positionsOf s sender))));
      [lia|done].
  - intros p Hp Ha. unfold removePosition, validPositionId, require, index, bind.
    pose proof (lookup_lt_Some _ _ _ Hp) as Hlt.
    destruct (N.ltb_spec i (N.of_nat (length (positionsOf s sender))));
      [|lia].
    by rewrite Hp, Ha.
  - intros e He. unfold exec; simpl. by rewrite He.
  - intros p Hp Ha Hc. unfold removePosition, bind.
    assert (validPositionId s sender i = Ok tt) as ->
      by (apply validPositionId_Ok; eauto).
    unfold checked_sub. destruct (N.leb_spec 1 (countOf s sender)); [|lia].
    eauto.
  - intros s' Hs'. apply removePosition_inv in Hs' as (p & Hp & Ha & Hc & ->).
    exists p. split; [done|]. split; [done|].
    rewrite positionsOf_store. unfold getPositionCount.
    rewrite countOf_store.
    destruct (decide (sender = sender)); [|done].
    split; [|split; [done|]].
    + rewrite list_insert_alter. apply list_alter_ext; [|done].
      intros q Hq. by assert (q = p) as -> by congruence.
    + intros u Hu. rewrite positionsOf_store, countOf_store.
      by destruct (decide (sender = u)).
Qed.

Lemma removePosition_spec_witness :
  let s := run sample_txs genesis in
  (N.of_nat (length (positionsOf s alice)) <= 2 /\
   removePosition s alice 2 = Err (Revert "Invalid position ID")) /\
  (positionsOf s alice !! N.to_nat 0 = Some (mkPosition weth 5 2000 100 "Aave" false) /\
   removePosition s alice 0 = Err (Revert "Position is not active")) /\
  exec s (RemovePosition alice 0) = s /\
  (positionsOf s alice !! N.to_nat 1 = Some (mkPosition weth 7 1900 101 "Uniswap" true) /\
   1 <= countOf s alice /\
   exists s', removePosition s alice 1 = Ok s').
Proof.
  intros s.
  destruct (removePosition_spec s alice 2) as (H1 & _).
  destruct (removePosition_spec s alice 0) as (_ & H2 & H3 & _).
  destruct (removePosition_spec s alice 1) as (_ & _ & _ & H4 & _).
  split; [split; [vm_compute; discriminate | apply H1; vm_compute; discriminate]|].
  split; [split; [reflexivity | apply (H2 _ eq_refl eq_refl)]|].
  split; [apply (H3 _ (H2 _ eq_refl eq_refl))|].
  split; [reflexivity|]. split; [vm_compute; discriminate|].
  apply (H4 _ eq_refl eq_refl). vm_compute; discriminate.
Defined.

(** C9: on an entry whose flag is set, [updatePosition] succeeds and
    overwrites the amount and the entry price of that entry only: token,
    timestamp, protocol and flag are kept, the other entries of the
    sender and the arrays of the other owners are the same, and no
    counter changes. *)
Theorem updatePosition_frame (s : State) (sender : address)
    (i newAmount newEntryPrice : N) (p : Position) :
  positionsOf s sender !! N.to_nat i = Some p ->
  active p = true ->
  exists s', updatePosition s sender i newAmount newEntryPrice = Ok s' /\
    positionsOf s' sender =
      <[N.to_nat i := mkPosition (token p) newAmount newEntryPrice
                                 (timestamp p) (protocol p) (active p)]>
        (positionsOf s sender) /\
    (forall u, u <> sender -> positionsOf s' u = positionsOf s u) /\
    (forall u, getPositionCount s' u = getPositionCount s u) /\
    events s' = events s ++ [PositionUpdated sender i newAmount newEntryPrice].
Proof.
  intros Hp Ha. unfold updatePosition, bind.
  assert (validPositionId s sender i = Ok tt) as ->
    by (apply validPositionId_Ok; eauto).
  eexists. split; [done|]. split; [|split; [|split; [|done]]].
  - rewrite positionsOf_store. destruct (decide (sender = sender)); [|done].
    rewrite list_insert_alter. apply list_alter_ext; [|done].
      intros q Hq. by assert (q = p) as -> by congruence.
  - intros u Hu. rewrite positionsOf_store. by destruct (decide (sender = u)).
  - intros u. unfold getPositionCount. rewrite countOf_store.
    by destruct (decide (sender = u)) as [->|].
Qed.

Lemma updatePosition_frame_witness :
  let s := run sample_txs genesis in
  let p := mkPosition weth 7 1900 101 "Uniswap" true in
  positionsOf s alice !! N.to_nat 1 = Some p /\ active p = true /\
  exists s', updatePosition s alice 1 8 1950 = Ok s' /\
    positionsOf s' alice =
      [ mkPosition weth 5 2000 100 "Aave" false;
        mkPosition weth 8 1950 101 "Uniswap" true ] /\
    positionsOf s' bob = positionsOf s bob /\
    getPositionCount s' alice = 1.
Proof.
  intros s p. split; [reflexivity|]. split; [reflexivity|].
  destruct (updatePosition_frame s alice 1 8 1950 p eq_refl eq_refl)
    as (s' & Hs' & Hps & Hothers & Hcount & _).
  exists s'. split; [exact Hs'|]. split; [exact Hps|].
  split; [apply Hothers; discriminate|].
  rewrite Hcount. reflexivity.
Defined.

Lemma getPosition_lookup s user i p :
  positionsOf s user !! N.to_nat i = Some p -> getPosition s user i = Ok p.
Proof.
  intros Hp. unfold getPosition, require, index, bind.
  pose proof (lookup_lt_Some _ _ _ Hp) as Hlt.
  destruct (N.ltb_spec i (N.of_nat (length (positionsOf s user)))); [|lia].
  by rewrite Hp.
Qed.

(** C10: [getPosition] checks the index range only: below the length of
    the user's array (the number of positions ever appended) it returns
    the stored entry whatever its flag, and at or beyond the length it
    reverts with "Invalid position ID".  In particular an entry that
    [removePosition] has just soft-deleted is still returned, with its
    flag cleared. *)
Theorem getPosition_by_index (s : State) (user : address) (i : N) :
  (i < N.of_nat (length (positionsOf s user)) ->
     exists p, positionsOf s user !! N.to_nat i = Some p /\
               getPosition s user i = Ok p) /\
  (N.of_nat (length (positionsOf s user)) <= i ->
     getPosition s user i = Err (Revert "Invalid position ID")) /\
  (forall s', removePosition s user i = Ok s' ->
     exists p, getPosition s user i = Ok p /\
               getPosition s' user i = Ok (set_active false p)).
Proof.
  split; [|split].
  - intros H.
    destruct (lookup_lt_is_Some_2 (positionsOf s user) (N.to_nat i)) as [p Hp];
      [lia|].
    exists p. split; [done|]. by apply getPosition_lookup.
  - intros H. unfold getPosition, require, bind.
    by destruct (N.ltb_spec i (N.of_nat (length (positionsOf s user)))); [lia|].
  - intros s' Hs'. apply removePosition_inv in Hs' as (p & Hp & _ & _ & ->).
    exists p. split; [by apply getPosition_lookup|].
    apply getPosition_lookup. rewrite positionsOf_store.
    destruct (decide (user = user)); [|done].
    by rewrite list_lookup_alter_eq, Hp.
Qed.

Lemma getPosition_by_index_witness :
  let s := run sample_txs genesis in
  (0 < N.of_nat (length (positionsOf s alice)) /\
   getPosition s alice 0 = Ok (mkPosition weth 5 2000 100 "Aave" false)) /\
  (N.of_nat (length (positionsOf s alice)) <= 2 /\
   getPosition s alice 2 = Err (Revert "Invalid position ID")) /\
  (exists s', removePosition s alice 1 = Ok s' /\
     getPosition s' alice 1 = Ok (mkPosition weth 7 1900 101 "Uniswap" false)).
Proof.
  intros s. destruct (getPosition_by_index s alice 0) as (H0 & _ & _).
  destruct (getPosition_by_index s alice 2) as (_ & H2 & _).
  destruct (getPosition_by_index s alice 1) as (_ & _ & H1).
  split; [split|split; [split|]].
  - reflexivity.
  - destruct (H0 eq_refl) as (p & Hp & Hget). rewrite Hget.
    f_equal. vm_compute in Hp. injection Hp as <-. reflexivity.
  - vm_compute; discriminate.
  - apply H2. vm_compute; discriminate.
  - eexists. split; [reflexivity|].
    destruct (H1 _ eq_refl) as (p & Hp & Hget). rewrite Hget.
    f_equal. vm_compute in Hp. injection Hp as <-. reflexivity.
Defined.



End LedgerProofs.

Module ChainProofs.
Import Chain.

Lemma promise_all3_rejected {A B C} (a : outcome A) (b : outcome B) (c : outcome C) :
  is_rejected a || is_rejected b || is_rejected c = true ->
  exists m, promise_all3 a b c = Rejected m.
Proof. destruct a, b, c; simpl; intros H; try done; eauto. Qed.

Lemma promise_all3_resolved {A B C} (a : outcome A) (b : outcome B) (c : outcome C) x :
  promise_all3 a b c = Resolved x ->
  a = Resolved x.1.1 /\ b = Resolved x.1.2 /\ c = Resolved x.2.
Proof. destruct a, b, c; simpl; intros [= <-]; done. Qed.

(** C5: [getTokenInfo] answers from the cache when the key is present,
    issuing no read and changing nothing; on a miss it rejects with
    "Provider not found for network: ..." when the network has no
    provider, and with "Failed to fetch token info: ..." when one of the
    reads of symbol, decimals and totalSupply rejects; every rejected
    call leaves the service, and so the cache, exactly as it was; when
    the three reads succeed, the complete record is stored under the key
    and returned. *)
Theorem getTokenInfo_spec (rpc : string -> string -> ERC20Reads)
    (this : BlockchainService) (tokenAddress network : string) :
  let key := cacheKeyOf network tokenAddress in
  (forall t, tokenCache this !! key = Some t ->
     getTokenInfo rpc this tokenAddress network = (Resolved t, this, [])) /\
  (tokenCache this !! key = None -> providers this !! network = None ->
     getTokenInfo rpc this tokenAddress network
       = (Rejected ("Provider not found for network: " ++ network), this, [])) /\
  (forall provider,
     tokenCache this !! key = None -> providers this !! network = Some provider ->
     let token := rpc provider tokenAddress in
     is_rejected (read_symbol token) || is_rejected (read_decimals token)
       || is_rejected (read_totalSupply token) = true ->
     exists m,
       getTokenInfo rpc this tokenAddress network
         = (Rejected ("Failed to fetch token info: " ++ m), this,
            [ call_symbol provider tokenAddress;
              call_decimals provider tokenAddress;
              call_totalSupply provider tokenAddress ])) /\
  (forall provider symbol decimals supply,
     tokenCache this !! key = None -> providers this !! network = Some provider ->
     rpc provider tokenAddress
       = mkReads (Resolved symbol) (Resolved decimals) (Resolved supply) ->
     let info := mkTokenInfo tokenAddress symbol decimals (JS.N_toString supply) in
     getTokenInfo rpc this tokenAddress network
       = (Resolved info,
          mkService (providers this) (<[key := info]> (tokenCache this)),
          [ call_symbol provider tokenAddress;
            call_decimals provider tokenAddress;
            call_totalSupply provider tokenAddress ])) /\
  (forall m this' calls,
     getTokenInfo rpc this tokenAddress network = (Rejected m, this', calls) ->
     this' = this /\ tokenCache this' !! key = None).
Proof.
  intros key. unfold getTokenInfo. fold key.
  split; [|split; [|split; [|split]]].
  - intros t ->. done.
  - intros -> ->. done.
  - intros provider Hc Hp Hrej. rewrite Hc, Hp.
    destruct (promise_all3_rejected _ _ _ Hrej) as [m Hm].
    rewrite Hm. eauto.
  - intros provider symbol decimals supply Hc Hp Hr.
    rewrite Hc, Hp, Hr. simpl. eauto.
  - intros m this' calls.
    destruct (tokenCache this !! key) as [t|] eqn:Hc; [done|].
    destruct (providers this !! network) as [provider|];
      [|by intros [= _ <- _]].
    destruct (promise_all3 _ _ _) as [[[sy de] su]|m']; [done|].
    by intros [= _ <- _].
Qed.

Lemma getTokenInfo_spec_witness :
  let this := sample_service in
  (tokenCache this !! cacheKeyOf "ethereum" "0xc0ffee" = Some sample_weth /\
   getTokenInfo sample_rpc this "0xc0ffee" "ethereum"
     = (Resolved sample_weth, this, [])) /\
  (tokenCache this !! cacheKeyOf "base" "0xbeef" = None /\
   providers this !! "base" = None /\
   getTokenInfo sample_rpc this "0xbeef" "base"
     = (Rejected "Provider not found for network: base", this, [])) /\
  (tokenCache this !! cacheKeyOf "ethereum" "0xdead" = None /\
   providers this !! "ethereum" = Some "https://eth.example" /\
   exists m calls,
     getTokenInfo sample_rpc this "0xdead" "ethereum"
       = (Rejected ("Failed to fetch token info: " ++ m), this, calls) /\
     tokenCache this !! cacheKeyOf "ethereum" "0xdead" = None) /\
  (exists this' calls,
     getTokenInfo sample_rpc this "0xbeef" "ethereum"
       = (Resolved (mkTokenInfo "0xbeef" "DAI" 18 "5000"), this', calls) /\
     tokenCache this' !! cacheKeyOf "ethereum" "0xbeef"
       = Some (mkTokenInfo "0xbeef" "DAI" 18 "5000")).
Proof.
  intros this.
  destruct (getTokenInfo_spec sample_rpc this "0xc0ffee" "ethereum")
    as (Hhit & _).
  destruct (getTokenInfo_spec sample_rpc this "0xbeef" "base")
    as (_ & Hnet & _).
  destruct (getTokenInfo_spec sample_rpc this "0xdead" "ethereum")
    as (_ & _ & Hread & _ & Hkeep).
  destruct (getTokenInfo_spec sample_rpc this "0xbeef" "ethereum")
    as (_ & _ & _ & Hok & _).
  split; [split; [reflexivity | apply Hhit; reflexivity]|].
  split; [split; [reflexivity | split; [reflexivity | apply Hnet; reflexivity]]|].
  split.
  - split; [reflexivity|]. split; [reflexivity|].
    destruct (Hread "https://eth.example" eq_refl eq_refl eq_refl) as [m Hm].
    exists m. eexists. split; [exact Hm|].
    destruct (Hkeep _ _ _ Hm) as [_ Hnone]. exact Hnone.
  - pose proof (Hok "https://eth.example" "DAI" 18 5000 eq_refl eq_refl eq_refl)
      as Hget.
    do 2 eexists. split; [exact Hget|]. reflexivity.
Defined.

End ChainProofs.

Module JSProofs.
Import JS.

Lemma char_digit_digit_char d : d < 10 -> char_digit (digit_char d) = Some d.
Proof.
  intros H.
  assert (d = 0 \/ d = 1 \/ d = 2 \/ d = 3 \/ d = 4 \/ d = 5 \/ d = 6 \/
          d = 7 \/ d = 8 \/ d = 9) as Hd by lia.
  repeat (destruct Hd as [->|Hd]; [reflexivity|]). by subst.
Qed.

Lemma digit_char_not_sign d c :
  d < 10 -> char_digit c = None -> digit_char d <> c.
Proof.
  intros H Hc <-. rewrite char_digit_digit_char in Hc by done. done.
Qed.

Lemma digits_value_app ds1 ds2 acc :
  digits_value (ds1 ++ ds2) acc = digits_value ds2 (digits_value ds1 acc).
Proof. apply fold_left_app. Qed.

Lemma digits_value_acc ds : forall acc,
  digits_value ds acc = acc * 10 ^ N.of_nat (length ds) + digits_value ds 0.
Proof.
  induction ds as [|d ds IH]; intros acc.
  - simpl. lia.
  - change (digits_value (d :: ds) acc) with (digits_value ds (10 * acc + d)).
    change (digits_value (d :: ds) 0) with (digits_value ds (10 * 0 + d)).
    rewrite (IH (10 * acc + d)), (IH (10 * 0 + d)).
    replace (N.of_nat (length (d :: ds))) with (N.succ (N.of_nat (length ds)))
      by (simpl; lia).
    rewrite N.pow_succ_r'. lia.
Qed.

Lemma digits_value_zeros k acc :
  digits_value (repeat 0 k) acc = acc * 10 ^ N.of_nat k.
Proof.
  revert acc. induction k as [|k IH]; intros acc.
  - simpl. lia.
  - change (digits_value (repeat 0 (S k)) acc)
      with (digits_value (repeat 0 k) (10 * acc + 0)).
    rewrite IH. replace (N.of_nat (S k)) with (N.succ (N.of_nat k)) by lia.
    rewrite N.pow_succ_r'. lia.
Qed.

Lemma of_digits_app ds1 ds2 : of_digits (ds1 ++ ds2) = (of_digits ds1 ++ of_digits ds2)%string.
Proof.
  unfold of_digits. rewrite map_app.
  induction (map digit_char ds1) as [|c l IH]; simpl; [done|]. by rewrite IH.
Qed.

Lemma length_of_digits ds : String.length (of_digits ds) = length ds.
Proof. induction ds as [|d ds IH]; simpl; [done|]. by rewrite <- IH. Qed.

Lemma read_digits_of_digits ds : forall rest acc c,
  Forall (fun d => d < 10) ds ->
  read_digits (of_digits ds ++ rest) acc c =
  read_digits rest (digits_value ds acc) (c + length ds).
Proof.
  induction ds as [|d ds IH]; intros rest acc c Hds.
  - simpl. by rewrite Nat.add_0_r.
  - inversion Hds as [|? ? Hd Hds']; subst.
    change (of_digits (d :: ds) ++ rest)%string
      with (String (digit_char d) (of_digits ds ++ rest)).
    simpl read_digits. rewrite char_digit_digit_char by done.
    rewrite IH by done. simpl length. f_equal. lia.
Qed.

Lemma digits_le_lt10 fuel : forall n, Forall (fun d => d < 10) (digits_le fuel n).
Proof.
  induction fuel as [|f IH]; intros n; simpl; [constructor|].
  constructor; [apply N.mod_lt; lia|].
  destruct (n / 10 =? 0); [constructor|apply IH].
Qed.

Lemma digits_le_value fuel : forall n,
  n < 10 ^ N.of_nat fuel -> digits_value (rev (digits_le fuel n)) 0 = n.
Proof.
  induction fuel as [|f IH]; intros n Hn.
  - simpl in *. lia.
  - simpl digits_le. simpl rev. rewrite digits_value_app.
    replace (N.of_nat (S f)) with (N.succ (N.of_nat f)) in Hn by lia.
    rewrite N.pow_succ_r' in Hn.
    pose proof (N.div_mod n 10 ltac:(lia)) as Hdm.
    destruct (N.eqb_spec (n / 10) 0) as [Hz|Hnz].
    + simpl. lia.
    + rewrite IH.
      * simpl. lia.
      * apply N.Div0.div_lt_upper_bound; lia.
Qed.

Lemma digits_le_length fuel : forall n k,
  n < 10 ^ N.of_nat k -> (1 <= k)%nat -> (length (digits_le fuel n) <= k)%nat.
Proof.
  induction fuel as [|f IH]; intros n k Hn Hk; simpl; [lia|].
  destruct (N.eqb_spec (n / 10) 0) as [Hz|Hnz]; simpl; [lia|].
  destruct k as [|k]; [lia|].
  replace (N.of_nat (S k)) with (N.succ (N.of_nat k)) in Hn by lia.
  rewrite N.pow_succ_r' in Hn.
  assert (n / 10 < 10 ^ N.of_nat k) as Hq
    by (apply N.Div0.div_lt_upper_bound; lia).
  destruct k as [|k].
  - change (10 ^ N.of_nat 0) with 1 in Hq. apply N.lt_1_r in Hq. done.
  - specialize (IH (n / 10) (S k) Hq). lia.
Qed.

Lemma digits_le_nonempty fuel n : (1 <= length (digits_le (S fuel) n))%nat.
Proof. simpl. lia. Qed.

Lemma fuel_enough n : n < 10 ^ N.of_nat (S (N.to_nat (N.size n))).
Proof.
  pose proof (N.size_gt n) as H.
  replace (N.of_nat (S (N.to_nat (N.size n)))) with (N.succ (N.size n)) by lia.
  rewrite N.pow_succ_r'.
  assert (2 ^ N.size n <= 10 ^ N.size n) by (apply N.pow_le_mono_l; lia).
  lia.
Qed.

Lemma N_toString_digits n :
  exists ds, N_toString n = of_digits ds /\ Forall (fun d => d < 10) ds /\
    digits_value ds 0 = n /\ (1 <= length ds)%nat /\
    forall k, n < 10 ^ N.of_nat k -> (1 <= k)%nat -> (length ds <= k)%nat.
Proof.
  exists (rev (digits_le (S (N.to_nat (N.size n))) n)).
  split; [done|]. split; [apply Forall_rev, digits_le_lt10|].
  split; [apply digits_le_value, fuel_enough|].
  rewrite length_rev. split; [apply digits_le_nonempty|].
  intros k. apply digits_le_length.
Qed.

End JSProofs.

Module GraphProofs.
Import JS Graph JSProofs.

Lemma BigInt_toString_of_N n : BigInt_toString (Z.of_N n) = N_toString n.
Proof. by destruct n. Qed.

Lemma formattedValue_of_N n d :
  formattedValue (Z.of_N n) d =
  (N_toString (n / 10 ^ N.of_nat d) ++ "." ++
   padStart (N_toString (n mod 10 ^ N.of_nat d)) d "0")%string.
Proof.
  unfold formattedValue.
  replace (10 ^ Z.of_nat d)%Z with (Z.of_N (10 ^ N.of_nat d))
    by (rewrite N2Z.inj_pow, nat_N_Z; done).
  by rewrite <- N2Z.inj_quot, <- N2Z.inj_rem, !BigInt_toString_of_N.
Qed.

Lemma padStart_of_digits ds d :
  padStart (of_digits ds) d "0" = of_digits (repeat 0 (d - length ds) ++ ds).
Proof.
  unfold padStart. rewrite length_of_digits, of_digits_app. f_equal.
  induction (d - length ds)%nat as [|k IH]; simpl; [done|]. by rewrite IH.
Qed.

Lemma append_empty_r (s : string) : (s ++ "")%string = s.
Proof.
  induction s as [|c s IH]; [done|].
  change (String c (s ++ "") = String c s). by rewrite IH.
Qed.

Lemma read_all_digits ds acc :
  Forall (fun d => d < 10) ds ->
  read_digits (of_digits ds) acc 0 = (digits_value ds acc, length ds, EmptyString).
Proof.
  intros Hds. rewrite <- (append_empty_r (of_digits ds)).
  by rewrite read_digits_of_digits.
Qed.

Lemma BigInt_N_toString n : BigInt (N_toString n) = Some (Z.of_N n).
Proof.
  destruct (N_toString_digits n) as (ds & -> & Hds & Hv & Hlen & _).
  destruct ds as [|d ds]; [simpl in Hlen; lia|].
  pose proof (read_all_digits (d :: ds) 0 Hds) as Hread. rewrite Hv in Hread.
  inversion Hds as [|? ? Hd _]; subst.
  change (of_digits (d :: ds)) with (String (digit_char d) (of_digits ds)) in *.
  unfold BigInt.
  destruct (decide (digit_char d = "-"%char)) as [E|_];
    [by apply digit_char_not_sign in E|].
  destruct (decide (digit_char d = "+"%char)) as [E|_];
    [by apply digit_char_not_sign in E|].
  by rewrite Hread.
Qed.

(** The string built by [formatTokenAmount] reads back as an unsigned
    literal whose digits are those of the balance: [k] digits after the
    point, where [k] is [decimals], or 1 when [decimals] is 0. *)
Lemma parse_formattedValue n d :
  parse_decimal_prefix (formattedValue (Z.of_N n) d) =
  Some (false, n * 10 ^ N.of_nat (Nat.max d 1 - d), Nat.max d 1).
Proof.
  rewrite formattedValue_of_N.
  set (q := n / 10 ^ N.of_nat d). set (r := n mod 10 ^ N.of_nat d).
  destruct (N_toString_digits q) as (ds1 & -> & Hds1 & Hv1 & Hlen1 & _).
  destruct (N_toString_digits r) as (ds2 & -> & Hds2 & Hv2 & Hlen2 & Hb2).
  rewrite padStart_of_digits.
  set (frac := repeat 0 (d - length ds2) ++ ds2).
  assert (Forall (fun x => x < 10) frac) as Hfrac.
  { apply Forall_app. split; [|done]. apply Forall_forall.
    intros x Hx%list_elem_of_In%repeat_spec. lia. }
  assert (parse_unsigned (of_digits ds1 ++ "." ++ of_digits frac)
          = Some (digits_value frac q, length frac)) as Hparse.
  { unfold parse_unsigned.
    rewrite read_digits_of_digits by done. rewrite Hv1.
    change ("." ++ of_digits frac)%string with (String "." (of_digits frac)).
    cbn [read_digits]. change (char_digit ".") with (@None N). cbv iota beta.
    destruct (decide ("."%char = "."%char)) as [_|]; [|done].
    rewrite read_all_digits by done.
    destruct ds1; [simpl in Hlen1; lia|done]. }
  assert (parse_decimal_prefix (of_digits ds1 ++ "." ++ of_digits frac)
          = Some (false, digits_value frac q, length frac)) as ->.
  { destruct ds1 as [|d1 ds1]; [simpl in Hlen1; lia|].
    inversion Hds1 as [|? ? Hd1 _]; subst.
    change (of_digits (d1 :: ds1) ++ "." ++ of_digits frac)%string
      with (String (digit_char d1) (of_digits ds1 ++ "." ++ of_digits frac)) in *.
    unfold parse_decimal_prefix.
    destruct (decide (digit_char d1 = "-"%char)) as [E|_];
      [by apply digit_char_not_sign in E|].
    destruct (decide (digit_char d1 = "+"%char)) as [E|_];
      [by apply digit_char_not_sign in E|].
    by rewrite Hparse. }
  assert (r < 10 ^ N.of_nat (Nat.max d 1)) as Hr.
  { unfold r. destruct d as [|d].
    - rewrite N.mod_1_r. simpl. lia.
    - rewrite Nat.max_l by lia. apply N.mod_lt, N.pow_nonzero. lia. }
  specialize (Hb2 _ Hr ltac:(lia)).
  assert (length frac = Nat.max d 1) as Hlen.
  { unfold frac. rewrite length_app, repeat_length. lia. }
  rewrite Hlen.
  assert (digits_value frac q = n * 10 ^ N.of_nat (Nat.max d 1 - d)) as ->;
    [|done].
  unfold frac. rewrite digits_value_app, digits_value_zeros, digits_value_acc, Hv2.
  rewrite <- N.mul_assoc, <- N.pow_add_r.
  destruct d as [|d].
  - assert (q = n) as -> by (unfold q; apply N.div_1_r).
    assert (r = 0) as -> by (unfold r; apply N.mod_1_r).
    replace (N.of_nat (0 - length ds2) + N.of_nat (length ds2)) with 1 by lia.
    change (N.of_nat (Nat.max 0 1 - 0)) with 1. lia.
  - replace (N.of_nat (S d - length ds2) + N.of_nat (length ds2))
      with (N.of_nat (S d)) by lia.
    rewrite Nat.max_l by lia. rewrite Nat.sub_diag.
    change (10 ^ N.of_nat 0) with 1.
    pose proof (N.div_mod n (10 ^ N.of_nat (S d))
                  ltac:(apply N.pow_nonzero; lia)) as Hdm.
    fold q r in Hdm. lia.
Qed.

(** [round_half_even] is within one half of the exact quotient. *)
Lemma round_half_even_nearest (num den : Z) :
  (0 < den -> 2 * Z.abs (num - den * round_half_even num den) <= den)%Z.
Proof.
  intros Hden. unfold round_half_even.
  pose proof (Z.div_mod num den ltac:(lia)) as Hdm.
  pose proof (Z.mod_pos_bound num den Hden) as Hr.
  destruct (Z.compare_spec (2 * (num mod den)) den) as [Heq|Hlt|Hgt];
    [destruct (Z.even (num / den))| |]; nia.
Qed.

(** A finite result [m * 2^e] of [binary64_of_ratio] differs from [p / q]
    by at most half a unit in the last place, [2^e / 2]. *)
Lemma binary64_of_ratio_nearest (p q m e : Z) :
  (0 < p)%Z -> (0 < q)%Z ->
  binary64_of_ratio false p q = Finite m e ->
  if (0 <=? e)%Z
  then (2 * Z.abs (p - q * 2 ^ e * m) <= q * 2 ^ e)%Z
  else (2 * Z.abs (p * 2 ^ (- e) - q * m) <= q)%Z.
Proof.
  intros Hp Hq. unfold binary64_of_ratio.
  destruct (Z.eqb_spec p 0) as [|_]; [lia|].
  set (E := if (0 <=? Z.log2 p - Z.log2 q)%Z then _ else _).
  set (e' := Z.max (E - 52) (-1074)).
  destruct ((971 <? e') || ((e' =? 971) && _))%Z; [done|].
  intros [= <- <-].
  destruct (Z.leb_spec 0 e') as [He|He].
  - apply round_half_even_nearest.
    apply Z.mul_pos_pos; [done|]. apply Z.pow_pos_nonneg; lia.
  - by apply round_half_even_nearest.
Qed.

Example formattedValue_samples :
  formattedValue 1234567890123456789 0 = "1234567890123456789.0" /\
  formattedValue 1234567890123456789 6 = "1234567890123.456789" /\
  formattedValue 1234567890123456789 8 = "12345678901.23456789" /\
  formattedValue 1234567890123456789 18 = "1.234567890123456789" /\
  formattedValue 5 18 = "0.000000000000000005".
Proof. repeat split. Qed.

Lemma pow2_not_multiple_of_5 (c : Z) (k : nat) :
  (c mod 5 <> 0 -> (c * 2 ^ Z.of_nat k) mod 5 <> 0)%Z.
Proof.
  intros Hc. induction k as [|k IH].
  - by rewrite Z.mul_1_r.
  - rewrite Nat2Z.inj_succ, Z.pow_succ_r by lia.
    replace (c * (2 * 2 ^ Z.of_nat k))%Z with (2 * (c * 2 ^ Z.of_nat k))%Z by lia.
    revert IH. generalize (c * 2 ^ Z.of_nat k)%Z. intros x Hx.
    Z.div_mod_to_equations. lia.
Qed.

(** No binary floating-point value, whatever its mantissa and exponent,
    equals 1.234567890123456789: as a fraction in lowest terms its
    denominator is divisible by 5. *)
Lemma not_dyadic (m e : Z) :
  ~ (inject_Z m * Qpower 2 e == 1234567890123456789 # 1000000000000000000)%Q.
Proof.
  intros H. destruct (Z.le_gt_cases 0 e) as [He|He].
  - assert (2 ^ e == inject_Z (2 ^ e))%Q as Hp
      by (symmetry; apply (Zpower_Qpower 2 e He)).
    rewrite Hp, <- inject_Z_mult in H. unfold Qeq in H. simpl in H.
    assert ((1234567890123456789 mod 10 = 0)%Z) as Hmod; [|done].
    rewrite <- (Z.mul_1_r 1234567890123456789), <- H.
    replace (m * 2 ^ e * 1000000000000000000)%Z
      with ((m * 2 ^ e * 100000000000000000) * 10)%Z by lia.
    apply Z_mod_mult.
  - destruct e as [|p|p]; try lia.
    set (P := (2 ^ Z.pos p)%Z).
    assert (0 < P)%Z as HP by (apply Z.pow_pos_nonneg; lia).
    assert (2 ^ Z.neg p == / inject_Z P)%Q as Hp.
    { change (Z.neg p) with (- Z.pos p)%Z. rewrite Qpower_opp.
      apply Qinv_comp. symmetry. apply (Zpower_Qpower 2 (Z.pos p)). lia. }
    rewrite Hp in H.
    assert (inject_Z m
            == (1234567890123456789 # 1000000000000000000) * inject_Z P)%Q as H'.
    { rewrite <- H. field. intros Hz. unfold Qeq in Hz. simpl in Hz. lia. }
    unfold Qeq in H'. simpl in H'.
    apply (pow2_not_multiple_of_5 1234567890123456789 (Pos.to_nat p)); [done|].
    rewrite positive_nat_Z. fold P.
    replace (1234567890123456789 * P)%Z with (m * 200000000000000000 * 5)%Z by lia.
    apply Z_mod_mult.
Qed.

(** C4 (as the code has it): for every non-negative balance [n] and every
    number of decimals [d] (0, 6, 8 and 18 among them), the quotient and
    the remainder are formatted without loss: the string built is a
    literal with digits [m] and [k] digits after the point that denotes
    [n / 10^d] exactly.  What [formatTokenAmount] returns is [parseFloat]
    of that string, the binary64 number nearest to it.  For
    1234567890123456789 and 18 decimals the string is
    "1.234567890123456789". *)
Theorem formatTokenAmount_exact_digits (n : N) (d : nat) :
  (exists m k,
     parse_decimal_prefix (formattedValue (Z.of_N n) d) = Some (false, m, k) /\
     m * 10 ^ N.of_nat d = n * 10 ^ N.of_nat k /\
     formatTokenAmount (N_toString n) d
       = Some (binary64_of_ratio false (Z.of_N m) (10 ^ Z.of_nat k))) /\
  formattedValue 1234567890123456789 18 = "1.234567890123456789".
Proof.
  split; [|reflexivity].
  exists (n * 10 ^ N.of_nat (Nat.max d 1 - d)), (Nat.max d 1).
  split; [apply parse_formattedValue|]. split.
  - rewrite <- N.mul_assoc, <- N.pow_add_r. do 2 f_equal. lia.
  - unfold formatTokenAmount.
    pose proof (BigInt_N_toString n) as Hbig.
    destruct (decide (N_toString n = "" \/ N_toString n = "0")) as [[E|E]|_].
    + rewrite E in Hbig. injection Hbig as Hn.
      assert (n = 0) as -> by lia. done.
    + rewrite E in Hbig. injection Hbig as Hn.
      assert (n = 0) as -> by lia. done.
    + rewrite Hbig. unfold parseFloat. by rewrite parse_formattedValue.
Qed.

(** C4, refuted as stated: formatting 1234567890123456789 with 18
    decimals returns the binary64 number 5559999489923579 * 2^-52, which
    is not 1.234567890123456789; no binary64 number is. *)
Lemma formatTokenAmount_rounds :
  formatTokenAmount "1234567890123456789" 18
    = Some (Finite 5559999489923579 (-52)) /\
  forall x v, number_value x = Some v ->
    ~ (v == 1234567890123456789 # 1000000000000000000)%Q.
Proof.
  split; [reflexivity|].
  intros [| |m e] v; simpl; try done. intros [= <-]. apply not_dyadic.
Qed.

End GraphProofs.

(** * Exact results of binary64 arithmetic *)

Module FloatProofs.
Import JS.
Local Open Scope Z_scope.

Lemma round_half_even_exact (k q : Z) : 0 < q -> round_half_even (k * q) q = k.
Proof.
  intros Hq. unfold round_half_even.
  rewrite Z.div_mul, Z.mod_mul by lia.
  change (2 * 0) with 0. destruct (Z.compare_spec 0 q); lia.
Qed.

Lemma pow2_pos (k : Z) : 0 <= k -> 0 < 2 ^ k.
Proof. intros. apply Z.pow_pos_nonneg; lia. Qed.

Lemma pow2_split (a b : Z) : 0 <= a -> 0 <= b -> 2 ^ (a + b) = 2 ^ a * 2 ^ b.
Proof. intros. by apply Z.pow_add_r. Qed.

Lemma pow2_ge_1 (k : Z) : 0 <= k -> 1 <= 2 ^ k.
Proof. intros. pose proof (pow2_pos k). lia. Qed.

(** The exponent that [binary64_of_ratio] computes is a lower bound:
    [2^F <= p / q]. *)
Lemma floor_log2_lower (p q : Z) :
  0 < p -> 0 < q ->
  let e0 := Z.log2 p - Z.log2 q in
  let F := if 0 <=? e0
           then (if q * 2 ^ e0 <=? p then e0 else e0 - 1)
           else (if q <=? p * 2 ^ (- e0) then e0 else e0 - 1) in
  if 0 <=? F then q * 2 ^ F <= p else q <= p * 2 ^ (- F).
Proof.
  intros Hp Hq.
  pose proof (Z.log2_spec p Hp) as Ha. pose proof (Z.log2_spec q Hq) as Hb.
  pose proof (Z.log2_nonneg p) as Ha0. pose proof (Z.log2_nonneg q) as Hb0.
  set (a := Z.log2 p) in *. set (b := Z.log2 q) in *.
  cbv zeta.
  destruct (Z.leb_spec 0 (a - b)) as [Hab|Hab].
  - destruct (Z.leb_spec (q * 2 ^ (a - b)) p) as [Hle|Hgt].
    + destruct (Z.leb_spec 0 (a - b)); [done|lia].
    + destruct (Z.leb_spec 0 (a - b - 1)) as [H1|H1].
      * pose proof (pow2_split (Z.succ b) (a - b - 1) ltac:(lia) ltac:(lia)) as E.
        replace (Z.succ b + (a - b - 1)) with a in E by lia.
        pose proof (pow2_pos (a - b - 1) H1). nia.
      * assert (a = b) as Eab by lia.
        replace (- (a - b - 1)) with 1 by lia.
        rewrite Z.pow_succ_r in Hb by lia. rewrite Eab in *. 
        change (2 ^ 1) with 2. lia.
  - destruct (Z.leb_spec q (p * 2 ^ (- (a - b)))) as [Hle|Hgt].
    + destruct (Z.leb_spec 0 (a - b)); [lia|done].
    + destruct (Z.leb_spec 0 (a - b - 1)); [lia|].
      pose proof (pow2_split a (- (a - b - 1)) ltac:(lia) ltac:(lia)) as E.
      replace (a + - (a - b - 1)) with (Z.succ b) in E by lia.
      pose proof (pow2_pos (- (a - b - 1)) ltac:(lia)). nia.
Qed.

(** Rounding is exact on a ratio that is a binary64 number. *)
Lemma binary64_of_ratio_exact_Z (negative : bool) (p q m e : Z) :
  0 < p -> 0 < q -> 0 < m < 2 ^ 53 -> -1074 <= e <= 971 ->
  (if 0 <=? e then p = m * 2 ^ e * q else p * 2 ^ (- e) = m * q) ->
  exists e', e' <= e /\
    binary64_of_ratio negative p q
      = Finite (if negative then - (m * 2 ^ (e - e')) else m * 2 ^ (e - e')) e'.
Proof.
  intros Hp Hq Hm He Hpq.
  pose proof (floor_log2_lower p q Hp Hq) as HF. cbv zeta in HF.
  unfold binary64_of_ratio.
  destruct (Z.eqb_spec p 0) as [|_]; [lia|].
  set (F := if 0 <=? Z.log2 p - Z.log2 q then _ else _) in *.
  set (e' := Z.max (F - 52) (-1074)).
  assert (F - 52 <= e) as HFe.
  { destruct (Z.le_gt_cases (F - 52) e) as [|Hgt]; [done|exfalso].
    destruct (Z.leb_spec 0 F) as [HF0|HF0]; destruct (Z.leb_spec 0 e) as [He0|He0].
    - pose proof (pow2_split (e + 53) (F - e - 53) ltac:(lia) ltac:(lia)) as E1.
      replace (e + 53 + (F - e - 53)) with F in E1 by lia.
      pose proof (pow2_split e 53 ltac:(lia) ltac:(lia)) as E2.
      pose proof (pow2_ge_1 (F - e - 53) ltac:(lia)).
      pose proof (pow2_pos e He0). nia.
    - pose proof (pow2_split F (- e) ltac:(lia) ltac:(lia)) as E1.
      pose proof (pow2_split 53 (F - e - 53) ltac:(lia) ltac:(lia)) as E2.
      replace (53 + (F - e - 53)) with (F + - e) in E2 by lia.
      pose proof (pow2_ge_1 (F - e - 53) ltac:(lia)).
      pose proof (pow2_pos F HF0). pose proof (pow2_pos (- e) ltac:(lia)).
      assert (q * (2 ^ F * 2 ^ (- e)) <= m * q) by nia.
      nia.
    - lia.
    - pose proof (pow2_split (- F + 53) (F - e - 53) ltac:(lia) ltac:(lia)) as E1.
      replace (- F + 53 + (F - e - 53)) with (- e) in E1 by lia.
      pose proof (pow2_split (- F) 53 ltac:(lia) ltac:(lia)) as E2.
      pose proof (pow2_ge_1 (F - e - 53) ltac:(lia)).
      pose proof (pow2_pos (- F) ltac:(lia)). pose proof (pow2_pos (- e) ltac:(lia)).
      assert (q * 2 ^ (- e) <= m * q * 2 ^ (- F)) by nia.
      nia. }
  assert (e' <= e) as He' by (unfold e'; lia).
  assert (-1074 <= e') as He'' by (unfold e'; lia).
  set (m' := m * 2 ^ (e - e')).
  assert ((if 0 <=? e' then round_half_even p (q * 2 ^ e')
           else round_half_even (p * 2 ^ (- e')) q) = m') as ->.
  { unfold m'. destruct (Z.leb_spec 0 e') as [H0|H0].
    - destruct (Z.leb_spec 0 e) as [He0|He0]; [|lia].
      pose proof (pow2_split (e - e') e' ltac:(lia) ltac:(lia)) as E1.
      replace (e - e' + e') with e in E1 by lia.
      replace p with (m * 2 ^ (e - e') * (q * 2 ^ e')) by (rewrite Hpq, E1; ring).
      apply round_half_even_exact.
      pose proof (pow2_pos e' H0). nia.
    - destruct (Z.leb_spec 0 e) as [He0|He0].
      + pose proof (pow2_split e (- e') ltac:(lia) ltac:(lia)) as E1.
        replace (e + - e') with (e - e') in E1 by lia.
        replace (p * 2 ^ (- e')) with (m * 2 ^ (e - e') * q)
          by (rewrite Hpq, E1; ring).
        by apply round_half_even_exact.
      + pose proof (pow2_split (- e) (e - e') ltac:(lia) ltac:(lia)) as E1.
        replace (- e + (e - e')) with (- e') in E1 by lia.
        replace (p * 2 ^ (- e')) with (m * 2 ^ (e - e') * q).
        * by apply round_half_even_exact.
        * rewrite E1. 
          replace (p * (2 ^ (- e) * 2 ^ (e - e'))) with (p * 2 ^ (- e) * 2 ^ (e - e')) by ring.
          rewrite Hpq. ring. }
  exists e'. split; [done|].
  destruct (Z.ltb_spec 971 e') as [|_]; [lia|].
  destruct (Z.eqb_spec e' 971) as [E|_]; [|done].
  assert (e = 971) as -> by lia. unfold m'. rewrite E. 
  replace (971 - 971) with 0 by lia. rewrite Z.pow_0_r, Z.mul_1_r.
  destruct (Z.leb_spec (2 ^ 53) m); [lia|done].
Qed.


Local Open Scope Q_scope.

Lemma Qpower2_pos (e : Z) : 0 < 2 ^ e.
Proof. by apply Qpower_0_lt. Qed.

Lemma Qpower2_inject (k : Z) : (0 <= k)%Z -> 2 ^ k == inject_Z (2 ^ k).
Proof. intros. symmetry. by apply (Zpower_Qpower 2 k). Qed.

Lemma Qpower2_neg (k : Z) : (k < 0)%Z -> 2 ^ k == / inject_Z (2 ^ (- k)).
Proof.
  intros Hk. replace k with (- - k)%Z at 1 by lia. rewrite Qpower_opp.
  apply Qinv_comp. apply Qpower2_inject. lia.
Qed.

Lemma inject_Z_pos (z : Z) : (0 < z)%Z -> 0 < inject_Z z.
Proof. intros. by rewrite <- (Zlt_Qlt 0). Qed.

Lemma inject_Z_nonzero (z : Z) : (z <> 0)%Z -> ~ inject_Z z == 0.
Proof. intros Hz E. apply Hz. by apply (inject_Z_injective z 0%Z). Qed.

Lemma Qpower2_shift (m e e' : Z) :
  (e' <= e)%Z -> inject_Z (m * 2 ^ (e - e')) * 2 ^ e' == inject_Z m * 2 ^ e.
Proof.
  intros H. rewrite inject_Z_mult, <- Qpower2_inject by lia.
  rewrite <- Qmult_assoc, <- Qpower_plus by done.
  by replace (e - e' + e')%Z with e by lia.
Qed.

(** A ratio equal to [m * 2^e], read over the integers. *)
Lemma ratio_dyadic_Z (p q m e : Z) :
  (0 < q)%Z -> inject_Z p / inject_Z q == inject_Z m * 2 ^ e ->
  if (0 <=? e)%Z then p = (m * 2 ^ e * q)%Z else (p * 2 ^ (- e))%Z = (m * q)%Z.
Proof.
  intros Hq H.
  pose proof (inject_Z_nonzero q ltac:(lia)) as Hq0.
  destruct (Z.leb_spec 0 e) as [He|He].
  - rewrite Qpower2_inject in H by done.
    apply inject_Z_injective. rewrite !inject_Z_mult, <- H. by field.
  - rewrite Qpower2_neg in H by done.
    pose proof (inject_Z_nonzero (2 ^ (- e)) ltac:(pose proof (pow2_pos (- e)); lia)).
    apply inject_Z_injective. rewrite !inject_Z_mult.
    assert (inject_Z m == inject_Z p / inject_Z q * inject_Z (2 ^ (- e))) as ->
      by (rewrite H; by field).
    by field.
Qed.

Lemma representable_abs (x : Q) :
  representable x -> ~ x == 0 ->
  exists m e, (0 < m < 2 ^ 53)%Z /\ (-1074 <= e <= 971)%Z /\
              Qabs x == inject_Z m * 2 ^ e.
Proof.
  intros (m & e & Hm & He & Hx) Hx0.
  exists (Z.abs m), e. split; [|split; [done|]].
  - split; [|done]. destruct (Z.eq_dec m 0%Z) as [->|]; [|lia].
    exfalso. apply Hx0. rewrite Hx. apply Qmult_0_l.
  - rewrite Hx, Qabs_Qmult. rewrite (Qabs_pos (2 ^ e)).
    + reflexivity.
    + apply Qlt_le_weak, Qpower2_pos.
Qed.

(** Rounding the magnitude of a binary64 number and putting the sign
    back gives that number. *)
Lemma binary64_of_ratio_exact (negative : bool) (p q : Z) (x : Q) :
  (0 < p)%Z -> (0 < q)%Z -> representable x -> ~ x == 0 ->
  inject_Z p / inject_Z q == Qabs x ->
  exists m' e', binary64_of_ratio negative p q = Finite m' e' /\
    inject_Z m' * 2 ^ e' == (if negative then - Qabs x else Qabs x).
Proof.
  intros Hp Hq Hx Hx0 Hpq.
  destruct (representable_abs x Hx Hx0) as (m & e & Hm & He & Hv).
  rewrite Hv in Hpq. apply ratio_dyadic_Z in Hpq; [|done].
  destruct (binary64_of_ratio_exact_Z negative p q m e Hp Hq Hm He Hpq)
    as (e' & He' & ->).
  eexists _, _. split; [reflexivity|].
  destruct negative; rewrite Hv.
  - rewrite inject_Z_opp.
    assert (- inject_Z (m * 2 ^ (e - e')) * 2 ^ e'
            == - (inject_Z (m * 2 ^ (e - e')) * 2 ^ e')) as -> by ring.
    by rewrite Qpower2_shift.
  - by apply Qpower2_shift.
Qed.

Lemma Qabs_signed (M : Z) (y : Q) :
  0 < y ->
  (if (M <? 0)%Z then - Qabs (inject_Z M * y) else Qabs (inject_Z M * y))
  == inject_Z M * y.
Proof.
  intros Hy. destruct (Z.ltb_spec M 0) as [HM|HM].
  - rewrite Qabs_neg; [ring|].
    assert (0 == 0 * y) as -> by ring.
    apply Qmult_le_compat_r; [|by apply Qlt_le_weak].
    unfold Qle. simpl. lia.
  - rewrite Qabs_pos; [reflexivity|].
    apply Qmult_le_0_compat; [|by apply Qlt_le_weak].
    unfold Qle. simpl. lia.
Qed.

Lemma Qabs_scaled (M : Z) (y : Q) :
  0 < y -> Qabs (inject_Z M * y) == inject_Z (Z.abs M) * y.
Proof.
  intros Hy. rewrite Qabs_Qmult, (Qabs_pos y) by (by apply Qlt_le_weak).
  reflexivity.
Qed.

(** [number_of_dyadic] is exact on a binary64 number. *)
Lemma number_of_dyadic_exact (M E : Z) :
  representable (inject_Z M * 2 ^ E) ->
  exists m' e', number_of_dyadic M E = Finite m' e' /\
    inject_Z m' * 2 ^ e' == inject_Z M * 2 ^ E.
Proof.
  intros Hx. unfold number_of_dyadic.
  destruct (Z.eq_dec M 0%Z) as [->|HM].
  { exists 0%Z, 0%Z. split; [by destruct (0 <=? E)%Z|]. ring. }
  pose proof (Qpower2_pos E) as HE.
  assert (~ inject_Z M * 2 ^ E == 0) as Hx0.
  { intros H0. apply Qmult_integral in H0 as [H0|H0].
    - by apply inject_Z_nonzero in H0.
    - rewrite H0 in HE. by apply Qlt_irrefl in HE. }
  assert (forall p q, (0 < p)%Z -> (0 < q)%Z ->
            inject_Z p / inject_Z q == Qabs (inject_Z M * 2 ^ E) ->
            exists m' e', binary64_of_ratio (M <? 0)%Z p q = Finite m' e' /\
              inject_Z m' * 2 ^ e' == inject_Z M * 2 ^ E) as Hgo.
  { intros p q Hp Hq Hpq.
    destruct (binary64_of_ratio_exact (M <? 0)%Z p q _ Hp Hq Hx Hx0 Hpq)
      as (m' & e' & -> & Hv).
    exists m', e'. split; [done|]. rewrite Hv. by apply Qabs_signed. }
  destruct (Z.leb_spec 0 E) as [H0|H0]; apply Hgo.
  - pose proof (pow2_pos E H0). nia.
  - lia.
  - rewrite Qabs_scaled by done. rewrite inject_Z_mult, <- Qpower2_inject by done.
    field.
  - lia.
  - apply pow2_pos. lia.
  - rewrite Qabs_scaled by done. rewrite (Qpower2_neg E) by done.
    reflexivity.
Qed.


Lemma representable_eq (x y : Q) : x == y -> representable x -> representable y.
Proof. intros E (m & e & Hm & He & Hx). exists m, e. by rewrite <- E. Qed.

(** Addition is exact when the sum is a binary64 number. *)
Lemma number_add_exact (m1 e1 m2 e2 : Z) :
  representable (inject_Z m1 * 2 ^ e1 + inject_Z m2 * 2 ^ e2) ->
  exists m' e', number_add (Finite m1 e1) (Finite m2 e2) = Finite m' e' /\
    inject_Z m' * 2 ^ e' == inject_Z m1 * 2 ^ e1 + inject_Z m2 * 2 ^ e2.
Proof.
  intros Hx. unfold number_add. cbv zeta.
  set (e := Z.min e1 e2).
  assert (inject_Z (m1 * 2 ^ (e1 - e) + m2 * 2 ^ (e2 - e)) * 2 ^ e
          == inject_Z m1 * 2 ^ e1 + inject_Z m2 * 2 ^ e2) as Hsum.
  { rewrite inject_Z_plus, Qmult_plus_distr_l.
    rewrite !Qpower2_shift by (unfold e; lia). reflexivity. }
  destruct (number_of_dyadic_exact (m1 * 2 ^ (e1 - e) + m2 * 2 ^ (e2 - e)) e)
    as (m' & e' & -> & Hv).
  - apply (representable_eq _ _ (Qeq_sym _ _ Hsum) Hx).
  - exists m', e'. split; [done|]. by rewrite Hv.
Qed.

(** Division by a length is exact when the quotient is a binary64
    number. *)
Lemma number_div_length_exact (m e : Z) (n : nat) :
  (0 < n)%nat ->
  representable (inject_Z m * 2 ^ e / inject_Z (Z.of_nat n)) ->
  exists m' e', number_div_length (Finite m e) n = Finite m' e' /\
    inject_Z m' * 2 ^ e' == inject_Z m * 2 ^ e / inject_Z (Z.of_nat n).
Proof.
  intros Hn Hx. unfold number_div_length.
  destruct (Nat.eqb_spec n 0) as [|_]; [lia|].
  pose proof (inject_Z_pos (Z.of_nat n) ltac:(lia)) as Hnq.
  assert (~ inject_Z (Z.of_nat n) == 0) as Hn0
    by (intros E; rewrite E in Hnq; by apply Qlt_irrefl in Hnq).
  destruct (Z.eq_dec m 0%Z) as [->|Hm].
  { exists 0%Z, 0%Z. split; [by destruct (0 <=? e)%Z|]. by field. }
  pose proof (Qpower2_pos e) as He.
  set (y := 2 ^ e / inject_Z (Z.of_nat n)).
  assert (0 < y) as Hy.
  { unfold y. apply Qlt_shift_div_l; [done|]. by rewrite Qmult_0_l. }
  assert (inject_Z m * 2 ^ e / inject_Z (Z.of_nat n) == inject_Z m * y) as Exy
    by (unfold y; by field).
  apply (representable_eq _ _ Exy) in Hx.
  assert (~ inject_Z m * y == 0) as Hx0.
  { intros H0. apply Qmult_integral in H0 as [H0|H0].
    - by apply inject_Z_nonzero in H0.
    - rewrite H0 in Hy. by apply Qlt_irrefl in Hy. }
  assert (forall p q, (0 < p)%Z -> (0 < q)%Z ->
            inject_Z p / inject_Z q == Qabs (inject_Z m * y) ->
            exists m' e', binary64_of_ratio (m <? 0)%Z p q = Finite m' e' /\
              inject_Z m' * 2 ^ e'
              == inject_Z m * 2 ^ e / inject_Z (Z.of_nat n)) as Hgo.
  { intros p q Hp Hq Hpq.
    destruct (binary64_of_ratio_exact (m <? 0)%Z p q _ Hp Hq Hx Hx0 Hpq)
      as (m' & e' & -> & Hv).
    exists m', e'. split; [done|]. rewrite Hv, Exy. by apply Qabs_signed. }
  destruct (Z.leb_spec 0 e) as [H0|H0]; apply Hgo.
  - pose proof (pow2_pos e H0). nia.
  - lia.
  - rewrite Qabs_scaled by done. unfold y.
    rewrite inject_Z_mult, <- Qpower2_inject by done. by field.
  - lia.
  - pose proof (pow2_pos (- e) ltac:(lia)). nia.
  - rewrite Qabs_scaled by done. unfold y.
    rewrite inject_Z_mult, (Qpower2_neg e) by done.
    pose proof (inject_Z_nonzero (2 ^ (- e))
                  ltac:(pose proof (pow2_pos (- e)); lia)).
    by field.
Qed.

End FloatProofs.

Module PortfolioProofs.
Import JS FloatProofs Portfolio.
Local Open Scope Q_scope.

Lemma or_zero_finite (pos : Position) :
  (forall b, risk pos <> Some (Infinity b)) ->
  exists m e, or_zero (risk pos) = Finite m e /\
              inject_Z m * 2 ^ e == risk_figure pos.
Proof.
  intros Hfin. unfold or_zero, risk_figure.
  destruct (risk pos) as [[| b |m e]|].
  - exists 0%Z, 0%Z. split; [done|]. ring.
  - by destruct (Hfin b).
  - destruct (Z.eqb_spec m 0) as [->|_].
    + exists 0%Z, 0%Z. split; [done|]. ring.
    + by exists m, e.
  - exists 0%Z, 0%Z. split; [done|]. ring.
Qed.

Lemma reduce_exact (positions : list Position) : forall (m e : Z) (a : Q),
  inject_Z m * 2 ^ e == a ->
  Forall (fun pos => forall b, risk pos <> Some (Infinity b)) positions ->
  Forall representable (running_totals a (map risk_figure positions)) ->
  exists m' e',
    fold_left (fun sum pos => number_add sum (or_zero (risk pos)))
              positions (Finite m e) = Finite m' e' /\
    inject_Z m' * 2 ^ e' == a + total (map risk_figure positions).
Proof.
  induction positions as [|pos rest IH]; intros m e a Ha Hfin Hrep.
  - exists m, e. split; [done|]. simpl. rewrite Ha. ring.
  - inversion Hfin as [|? ? Hpos Hrest]; subst.
    simpl in Hrep. inversion Hrep as [|? ? Hstep Hrep']; subst.
    destruct (or_zero_finite pos Hpos) as (m1 & e1 & E1 & Hv1).
    destruct (number_add_exact m e m1 e1) as (m2 & e2 & E2 & Hv2).
    { apply (representable_eq (a + risk_figure pos)); [|done].
      by rewrite Ha, Hv1. }
    destruct (IH m2 e2 (a + risk_figure pos)) as (m' & e' & E' & Hv');
      [by rewrite Hv2, Ha, Hv1|done|done|].
    exists m', e'. split.
    + cbn [fold_left]. by rewrite E1, E2.
    + rewrite Hv'. simpl. ring.
Qed.

(** C8 (as the code has it): the score is 0 on the empty list and
    otherwise the quotient, by the number of all positions, of the sum
    of the figures, where a position whose figure is missing, zero or NaN
    adds 0; sum and quotient are computed in binary64 arithmetic, the sum
    from left to right.  Whenever the running sums and the mean are
    binary64 numbers, the score is exactly the arithmetic mean of the
    figures. *)
Theorem calculateRiskScore_mean (positions : list Position) :
  calculateRiskScore [] = Finite 0 0 /\
  calculateRiskScore positions =
    match positions with
    | [] => Finite 0 0
    | _ => number_div_length
             (fold_left number_add (map (fun pos => or_zero (risk pos)) positions)
                        (Finite 0 0))
             (length positions)
    end /\
  (Forall (fun pos => forall b, risk pos <> Some (Infinity b)) positions ->
   Forall representable (running_totals 0 (map risk_figure positions)) ->
   representable (arithmetic_mean (map risk_figure positions)) ->
   exists m e, calculateRiskScore positions = Finite m e /\
     inject_Z m * 2 ^ e == arithmetic_mean (map risk_figure positions)).
Proof.
  split; [reflexivity|]. split.
  - destruct positions as [|pos rest]; [reflexivity|].
    unfold calculateRiskScore.
    change (length (pos :: rest) =? 0)%nat with false. cbv iota zeta.
    f_equal. generalize (Finite 0 0). generalize (pos :: rest).
    induction l as [|p l IH]; intros acc; simpl; [done|]. apply IH.
  - intros Hfin Hrep Hmean.
    destruct positions as [|pos rest].
    { exists 0%Z, 0%Z. split; [reflexivity|]. reflexivity. }
    destruct (reduce_exact (pos :: rest) 0 0 0 ltac:(ring) Hfin Hrep)
      as (m & e & Hsum & Hv).
    unfold calculateRiskScore.
    change (length (pos :: rest) =? 0)%nat with false. cbv iota zeta.
    rewrite Hsum.
    unfold arithmetic_mean in *. rewrite length_map in *.
    rewrite Qplus_0_l in Hv.
    destruct (number_div_length_exact m e (length (pos :: rest)))
      as (m' & e' & -> & Hv').
    + simpl. lia.
    + apply (representable_eq
               (total (map risk_figure (pos :: rest))
                / inject_Z (Z.of_nat (length (pos :: rest))))); [|done].
      by rewrite Hv.
    + exists m', e'. split; [done|]. by rewrite Hv', Hv.
Qed.

Lemma calculateRiskScore_mean_witness :
  exists m e, calculateRiskScore sample_positions = Finite m e /\
    inject_Z m * 2 ^ e == 3.
Proof.
  destruct (calculateRiskScore_mean sample_positions) as (_ & _ & H).
  destruct H as (m & e & Hs & Hv).
  - repeat constructor; intros b; discriminate.
  - repeat constructor; [exists 3%Z, 0%Z|exists 3%Z, 0%Z|exists 9%Z, 0%Z];
      (split; [reflexivity|split; [lia|reflexivity]]).
  - exists 3%Z, 0%Z. split; [reflexivity|split; [lia|reflexivity]].
  - exists m, e. split; [exact Hs|]. rewrite Hv. reflexivity.
Defined.

(** C8, refuted as stated: for three positions of risk 0.1 each (the
    binary64 number 3602879701896397 * 2^-55) the arithmetic mean of
    the figures is that number itself, but the score returned is
    7205759403792795 * 2^-56, printed 0.10000000000000002: the sum
    0.1 + 0.1 + 0.1 is rounded before it is divided. *)
Lemma calculateRiskScore_rounds :
  let positions := [ with_risk (Some one_tenth); with_risk (Some one_tenth);
                     with_risk (Some one_tenth) ] in
  calculateRiskScore positions = Finite 7205759403792795 (-56) /\
  arithmetic_mean (map risk_figure positions)
    == inject_Z 3602879701896397 * 2 ^ (-55) /\
  ~ inject_Z 7205759403792795 * 2 ^ (-56)
    == arithmetic_mean (map risk_figure positions).
Proof.
  split; [vm_compute; reflexivity|]. split; [reflexivity|].
  intros H. vm_compute in H. discriminate H.
Qed.

(** One position without a risk figure gives 0; risks 1, 1 and 2 give
    the binary64 number nearest to 4/3, printed 1.3333333333333333. *)
Example calculateRiskScore_samples :
  calculateRiskScore [with_risk None] = Finite 0 0 /\
  calculateRiskScore [ with_risk (Some (Finite 1 0)); with_risk (Some (Finite 1 0));
                       with_risk (Some (Finite 2 0)) ]
    = Finite 6004799503160661 (-52).
Proof. split; vm_compute; reflexivity. Qed.

End PortfolioProofs.

(** * Further properties of the ledger *)

Module LedgerMore.
Import Ledger LedgerProofs.

Lemma getPosition_beyond s user i :
  N.of_nat (length (positionsOf s user)) <= i ->
  getPosition s user i = Err (Revert "Invalid position ID").
Proof.
  intros H. unfold getPosition, require, bind.
  by destruct (N.ltb_spec i (N.of_nat (length (positionsOf s user)))); [lia|].
Qed.

Lemma validPositionId_inactive s sender i p :
  positionsOf s sender !! N.to_nat i = Some p -> active p = false ->
  validPositionId s sender i = Err (Revert "Position is not active").
Proof.
  intros Hp Ha. unfold validPositionId, require, index, bind.
  pose proof (lookup_lt_Some _ _ _ Hp) as Hlt.
  destruct (N.ltb_spec i (N.of_nat (length (positionsOf s sender)))); [|lia].
  by rewrite Hp, Ha.
Qed.

(** [addPosition] returns the index at which the new position is stored:
    the previous length of the sender's array.  Reading that index back
    gives the arguments, the block time and a set flag, and the entries
    below it read as before. *)
Theorem addPosition_getPosition (s s' : State) (sender : address) (now : N)
    (t : address) (a e : N) (pr : string) (id : N) :
  addPosition s sender now t a e pr = Ok (s', id) ->
  id = N.of_nat (length (positionsOf s sender)) /\
  getPosition s' sender id = Ok (mkPosition t a e now pr true) /\
  getPosition s' sender (id + 1) = Err (Revert "Invalid position ID") /\
  forall j, j < id -> getPosition s' sender j = getPosition s sender j.
Proof.
  intros Hadd.
  destruct (addPosition_inv s sender now t a e pr _ Hadd) as [[_ H]|[_ H]];
    [|done].
  injection H as -> ->.
  assert (positionsOf (emit (PositionAdded sender
                               (N.of_nat (length (positionsOf s sender))) t a e pr)
                         (store s sender
                            (positionsOf s sender ++ [mkPosition t a e now pr true])
                            (countOf s sender + 1))) sender
          = positionsOf s sender ++ [mkPosition t a e now pr true]) as Hps.
  { rewrite positionsOf_store. by destruct (decide (sender = sender)). }
  split; [done|]. split; [|split].
  - apply getPosition_lookup. rewrite Hps, Nat2N.id.
    by rewrite lookup_app_r, Nat.sub_diag.
  - apply getPosition_beyond. rewrite Hps, length_app. simpl. lia.
  - intros j Hj.
    destruct (lookup_lt_is_Some_2 (positionsOf s sender) (N.to_nat j))
      as [p Hp]; [lia|].
    rewrite (getPosition_lookup _ _ _ _ Hp).
    apply getPosition_lookup. rewrite Hps. by apply lookup_app_l_Some.
Qed.

Lemma addPosition_getPosition_witness :
  let s := run sample_txs genesis in
  exists s', addPosition s alice 105 weth 4 1700 "Curve" = Ok (s', 2) /\
    getPosition s' alice 2 = Ok (mkPosition weth 4 1700 105 "Curve" true) /\
    getPosition s' alice 1 = getPosition s alice 1.
Proof.
  intros s.
  assert (exists s', addPosition s alice 105 weth 4 1700 "Curve" = Ok (s', 2))
    as [s' Hs'] by (eexists; reflexivity).
  exists s'. split; [exact Hs'|].
  destruct (addPosition_getPosition _ _ _ _ _ _ _ _ _ Hs')
    as (_ & Hget & _ & Hold).
  split; [exact Hget|]. apply Hold. reflexivity.
Defined.

Lemma identity_step s tx owner i p :
  positionsOf s owner !! i = Some p ->
  exists p', positionsOf (exec s tx) owner !! i = Some p' /\
    token p' = token p /\ timestamp p' = timestamp p /\
    protocol p' = protocol p /\ (active p' = true -> active p = true).
Proof.
  intros Hp. unfold exec.
  destruct (call s tx) as [s'|] eqn:Hcall; [|by exists p].
  apply call_inv in Hcall.
  destruct tx as [sender now t a e pr|sender j|sender j a e].
  - subst s'. rewrite positionsOf_store.
    destruct (decide (sender = owner)) as [->|]; [|by exists p].
    exists p. by rewrite (lookup_app_l_Some _ _ _ _ Hp).
  - destruct Hcall as (q & Hq & Hqa & _ & ->). rewrite positionsOf_store.
    destruct (decide (sender = owner)) as [->|]; [|by exists p].
    destruct (decide (N.to_nat j = i)) as [<-|Hne].
    + rewrite list_lookup_alter_eq, Hp. eexists. split; [done|].
      simpl. repeat split; congruence.
    + rewrite list_lookup_alter_ne by done. by exists p.
  - destruct Hcall as (q & Hq & Hqa & ->). rewrite positionsOf_store.
    destruct (decide (sender = owner)) as [->|]; [|by exists p].
    destruct (decide (N.to_nat j = i)) as [<-|Hne].
    + rewrite list_lookup_alter_eq, Hp. eexists. split; [done|].
      simpl. repeat split; congruence.
    + rewrite list_lookup_alter_ne by done. by exists p.
Qed.

(** Indices are never reused or reordered: whatever transactions follow,
    an entry stays at its index with the same token, timestamp and
    protocol label, and its flag can only go from set to cleared. *)
Theorem identity_fields_stable (txs : list Tx) (s : State) (owner : address)
    (i : nat) (p : Position) :
  positionsOf s owner !! i = Some p ->
  exists p', positionsOf (run txs s) owner !! i = Some p' /\
    token p' = token p /\ timestamp p' = timestamp p /\
    protocol p' = protocol p /\ (active p' = true -> active p = true).
Proof.
  revert s p. induction txs as [|tx txs IH]; intros s p Hp; simpl.
  - by exists p.
  - destruct (identity_step s tx owner i p Hp) as (p1 & Hp1 & Ht & Hts & Hpr & Ha).
    destruct (IH _ _ Hp1) as (p' & Hp' & Ht' & Hts' & Hpr' & Ha').
    exists p'. split; [done|]. repeat split; try congruence. tauto.
Qed.

Lemma identity_fields_stable_witness :
  let s := run sample_txs genesis in
  let txs := [ UpdatePosition alice 1 70 19; RemovePosition alice 1;
               AddPosition alice 200 weth 1 1 "Curve" ] in
  positionsOf s alice !! 1%nat = Some (mkPosition weth 7 1900 101 "Uniswap" true) /\
  exists p', positionsOf (run txs s) alice !! 1%nat = Some p' /\
    token p' = weth /\ timestamp p' = 101 /\ protocol p' = "Uniswap".
Proof.
  intros s txs. split; [reflexivity|].
  destruct (identity_fields_stable txs s alice 1%nat _ eq_refl)
    as (p' & Hp' & Ht & Hts & Hpr & _).
  exists p'. split; [exact Hp'|]. split; [exact Ht|]. split; [exact Hts|exact Hpr].
Defined.

(** Mutations are scoped to the sender: a transaction leaves the array,
    the counter and the result of [getAllPositions] of every other owner
    as they were. *)
Theorem other_owners_untouched (s : State) (tx : Tx) (user : address) :
  sender_of tx <> user ->
  positionsOf (exec s tx) user = positionsOf s user /\
  getPositionCount (exec s tx) user = getPositionCount s user /\
  getAllPositions (exec s tx) user = getAllPositions s user.
Proof.
  intros Hne.
  assert (positionsOf (exec s tx) user = positionsOf s user /\
          countOf (exec s tx) user = countOf s user) as [Hps Hc].
  { unfold exec. destruct (call s tx) as [s'|] eqn:Hcall; [|done].
    apply call_inv in Hcall.
    destruct tx as [sender now t a e pr|sender j|sender j a e]; simpl in Hne.
    - subst s'. rewrite positionsOf_store, countOf_store.
      by destruct (decide (sender = user)).
    - destruct Hcall as (q & _ & _ & _ & ->).
      rewrite positionsOf_store, countOf_store.
      by destruct (decide (sender = user)).
    - destruct Hcall as (q & _ & _ & ->).
      rewrite positionsOf_store, countOf_store.
      by destruct (decide (sender = user)). }
  split; [done|]. split; [done|].
  unfold getAllPositions. by rewrite Hps, Hc.
Qed.

Lemma other_owners_untouched_witness :
  let s := run sample_txs genesis in
  sender_of (RemovePosition alice 1) <> bob /\
  positionsOf (exec s (RemovePosition alice 1)) bob
    = [mkPosition weth 1 2100 102 "Aave" true] /\
  getPositionCount (exec s (RemovePosition alice 1)) bob = 1.
Proof.
  intros s.
  assert (sender_of (RemovePosition alice 1) <> bob) as Hne by discriminate.
  split; [exact Hne|].
  destruct (other_owners_untouched s (RemovePosition alice 1) bob Hne)
    as (Hps & Hc & _).
  split; [rewrite Hps; reflexivity | rewrite Hc; reflexivity].
Defined.

(** Removal is final: after a successful [removePosition], removing the
    same index again and updating it both revert with "Position is not
    active". *)
Theorem removed_position_is_locked (s s' : State) (sender : address) (i : N) :
  removePosition s sender i = Ok s' ->
  removePosition s' sender i = Err (Revert "Position is not active") /\
  forall a e, updatePosition s' sender i a e
              = Err (Revert "Position is not active").
Proof.
  intros Hrm. apply removePosition_inv in Hrm as (p & Hp & _ & _ & ->).
  assert (positionsOf
            (emit (PositionRemoved sender i)
               (store s sender
                  (alter (set_active false) (N.to_nat i) (positionsOf s sender))
                  (countOf s sender - 1))) sender !! N.to_nat i
          = Some (set_active false p)) as Hp'.
  { rewrite positionsOf_store. destruct (decide (sender = sender)); [|done].
    by rewrite list_lookup_alter_eq, Hp. }
  pose proof (validPositionId_inactive _ _ _ _ Hp' eq_refl) as Hv.
  split; [unfold removePosition | intros a e; unfold updatePosition];
    by rewrite Hv.
Qed.

Lemma removed_position_is_locked_witness :
  let s := run sample_txs genesis in
  exists s', removePosition s alice 1 = Ok s' /\
    removePosition s' alice 1 = Err (Revert "Position is not active") /\
    updatePosition s' alice 1 9 9 = Err (Revert "Position is not active").
Proof.
  intros s.
  assert (exists s', removePosition s alice 1 = Ok s') as [s' Hs']
    by (eexists; reflexivity).
  exists s'. split; [exact Hs'|].
  destruct (removed_position_is_locked _ _ _ _ Hs') as [H1 H2].
  split; [exact H1 | apply H2].
Defined.

Lemma events_emit ev s : events (emit ev s) = events s ++ [ev].
Proof. done. Qed.

Lemma added_app u l1 l2 : added u (l1 ++ l2) = added u l1 + added u l2.
Proof. unfold added. rewrite List.filter_app, length_app. lia. Qed.

Lemma removed_app u l1 l2 : removed u (l1 ++ l2) = removed u l1 + removed u l2.
Proof. unfold removed. rewrite List.filter_app, length_app. lia. Qed.

Lemma log_agrees_exec s tx : log_agrees s -> log_agrees (exec s tx).
Proof.
  intros Hl user. destruct (Hl user) as [Hlen Hcnt]. unfold exec.
  destruct (call s tx) as [s'|] eqn:Hcall; [|done].
  apply call_inv in Hcall.
  destruct tx as [sender now t a e pr|sender j|sender j a e].
  - subst s'. rewrite positionsOf_store, countOf_store, events_emit.
    rewrite added_app, removed_app. unfold added at 2 4, removed at 2. simpl.
    destruct (decide (sender = user)) as [->|Hne].
    + rewrite bool_decide_eq_true_2 by done. rewrite length_app. simpl. lia.
    + rewrite bool_decide_eq_false_2 by done. simpl. lia.
  - destruct Hcall as (q & _ & _ & Hpos & ->).
    rewrite positionsOf_store, countOf_store, events_emit.
    rewrite added_app, removed_app. unfold added at 2 4, removed at 2. simpl.
    destruct (decide (sender = user)) as [->|Hne].
    + rewrite bool_decide_eq_true_2 by done. rewrite length_alter. simpl. lia.
    + rewrite bool_decide_eq_false_2 by done. simpl. lia.
  - destruct Hcall as (q & _ & _ & ->).
    rewrite positionsOf_store, countOf_store, events_emit.
    rewrite added_app, removed_app. unfold added at 2 4, removed at 2. simpl.
    destruct (decide (sender = user)) as [->|Hne];
      [rewrite length_alter|]; lia.
Qed.

(** The event log accounts for the storage: after any transactions from
    the empty ledger, the number of positions an owner ever appended is
    the number of its [PositionAdded] events, and [getPositionCount] is
    that number less the number of its [PositionRemoved] events. *)
Theorem events_account_for_storage (txs : list Tx) (user : address) :
  let s := run txs genesis in
  N.of_nat (length (positionsOf s user)) = added user (events s) /\
  getPositionCount s user + removed user (events s) = added user (events s) /\
  getPositionCount s user <= N.of_nat (length (positionsOf s user)).
Proof.
  assert (forall l s, log_agrees s -> log_agrees (run l s)) as Hrun.
  { induction l as [|tx l IH]; intros s0 H0; simpl; [done|].
    by apply IH, log_agrees_exec. }
  assert (log_agrees genesis) as Hg by (intros u; done).
  intros s. destruct (Hrun txs genesis Hg user) as [Hlen Hcnt].
  fold s in Hlen, Hcnt. unfold getPositionCount. lia.
Qed.

Lemma loop_skips_inactive_tail ps p : forall arr k,
  active p = false ->
  getAllPositions_loop (ps ++ [p]) arr k = getAllPositions_loop ps arr k.
Proof.
  induction ps as [|q ps IH]; intros arr k Hp; simpl.
  - by rewrite Hp.
  - destruct (active q); [|by apply IH].
    destruct (k <? length arr)%nat; [by apply IH|done].
Qed.

(** Adding a position and removing it again restores the reads: the
    removal of the index just returned succeeds, and [getPositionCount]
    and [getAllPositions] of the sender are what they were before the
    two calls (the soft-deleted entry stays in the array). *)
Theorem add_then_remove (s s1 : State) (sender : address) (now : N)
    (t : address) (a e : N) (pr : string) (id : N) :
  addPosition s sender now t a e pr = Ok (s1, id) ->
  exists s2, removePosition s1 sender id = Ok s2 /\
    getPositionCount s2 sender = getPositionCount s sender /\
    getAllPositions s2 sender = getAllPositions s sender /\
    length (positionsOf s2 sender) = S (length (positionsOf s sender)).
Proof.
  intros Hadd.
  destruct (addPosition_inv s sender now t a e pr _ Hadd) as [[Hc H]|[_ H]];
    [|done].
  injection H as -> ->.
  set (p := mkPosition t a e now pr true).
  set (s1 := emit _ (store s sender (positionsOf s sender ++ [p]) _)).
  assert (positionsOf s1 sender = positionsOf s sender ++ [p]) as Hps1.
  { unfold s1. rewrite positionsOf_store. by destruct (decide (sender = sender)). }
  assert (countOf s1 sender = countOf s sender + 1) as Hc1.
  { unfold s1. rewrite countOf_store. by destruct (decide (sender = sender)). }
  assert (validPositionId s1 sender (N.of_nat (length (positionsOf s sender)))
          = Ok tt) as Hv.
  { apply validPositionId_Ok. exists p. split; [|done].
    by rewrite Hps1, Nat2N.id, lookup_app_r, Nat.sub_diag. }
  unfold removePosition, bind. rewrite Hv. unfold checked_sub.
  destruct (N.leb_spec 1 (countOf s1 sender)); [|lia].
  eexists. split; [done|].
  unfold getPositionCount, getAllPositions.
  rewrite positionsOf_store, countOf_store.
  destruct (decide (sender = sender)); [|done].
  assert (alter (set_active false) (N.to_nat (N.of_nat (length (positionsOf s sender))))
            (positionsOf s1 sender)
          = positionsOf s sender ++ [set_active false p]) as ->.
  { rewrite Hps1, Nat2N.id.
    apply list_eq. intros j.
    destruct (decide (j = length (positionsOf s sender))) as [->|Hne].
    - by rewrite list_lookup_alter_eq, !lookup_app_r, Nat.sub_diag.
    - rewrite list_lookup_alter_ne by done.
      destruct (decide (j < length (positionsOf s sender))%nat).
      + by rewrite !lookup_app_l.
      + rewrite !lookup_app_r by lia.
        by destruct (j - length (positionsOf s sender))%nat as [|[|?]] eqn:E;
          [lia| |]. }
  rewrite Hc1. replace (countOf s sender + 1 - 1) with (countOf s sender) by lia.
  split; [done|]. split; [by apply loop_skips_inactive_tail|].
  rewrite length_app. simpl. lia.
Qed.

Lemma add_then_remove_witness :
  let s := run sample_txs genesis in
  exists s1 s2, addPosition s alice 105 weth 4 1700 "Curve" = Ok (s1, 2) /\
    removePosition s1 alice 2 = Ok s2 /\
    getPositionCount s2 alice = 1 /\
    getAllPositions s2 alice = Ok [mkPosition weth 7 1900 101 "Uniswap" true].
Proof.
  intros s.
  assert (exists s1, addPosition s alice 105 weth 4 1700 "Curve" = Ok (s1, 2))
    as [s1 Hs1] by (eexists; reflexivity).
  destruct (add_then_remove _ _ _ _ _ _ _ _ _ Hs1) as (s2 & Hrm & Hc & Hall & _).
  exists s1, s2. split; [exact Hs1|]. split; [exact Hrm|].
  split; [rewrite Hc | rewrite Hall]; reflexivity.
Defined.

(** The last update wins: two successive updates of one entry leave the
    arrays and counters exactly as the second update alone would. *)
Theorem updatePosition_last_write_wins (s s1 s2 : State) (sender : address)
    (i a1 e1 a2 e2 : N) :
  updatePosition s sender i a1 e1 = Ok s1 ->
  updatePosition s1 sender i a2 e2 = Ok s2 ->
  exists s2', updatePosition s sender i a2 e2 = Ok s2' /\
    forall u, positionsOf s2 u = positionsOf s2' u /\
              getPositionCount s2 u = getPositionCount s2' u.
Proof.
  intros H1 H2.
  apply updatePosition_inv in H1 as (p & Hp & Ha & ->).
  apply updatePosition_inv in H2 as (p1 & Hp1 & Ha1 & ->).
  unfold updatePosition, bind.
  assert (validPositionId s sender i = Ok tt) as ->
    by (apply validPositionId_Ok; eauto).
  eexists. split; [done|]. intros u. unfold getPositionCount.
  rewrite !positionsOf_store, !countOf_store.
  destruct (decide (sender = u)) as [->|]; [|done].
  destruct (decide (u = u)); [|done]. split; [|done].
  rewrite list_alter_alter_eq. apply list_alter_ext; [|done].
  intros q _. done.
Qed.

Lemma updatePosition_last_write_wins_witness :
  let s := run sample_txs genesis in
  exists s1 s2, updatePosition s alice 1 8 1950 = Ok s1 /\
    updatePosition s1 alice 1 9 2050 = Ok s2 /\
    positionsOf s2 alice =
      [ mkPosition weth 5 2000 100 "Aave" false;
        mkPosition weth 9 2050 101 "Uniswap" true ].
Proof.
  intros s.
  assert (exists s1 s2, updatePosition s alice 1 8 1950 = Ok s1 /\
                        updatePosition s1 alice 1 9 2050 = Ok s2)
    as (s1 & s2 & Hs1 & Hs2) by (do 2 eexists; split; reflexivity).
  assert (exists x, updatePosition s alice 1 9 2050 = Ok x /\
            positionsOf x alice =
              [ mkPosition weth 5 2000 100 "Aave" false;
                mkPosition weth 9 2050 101 "Uniswap" true ])
    as (x & Hx & Hpx) by (eexists; split; reflexivity).
  destruct (updatePosition_last_write_wins _ _ _ _ _ _ _ _ _ Hs1 Hs2)
    as (s2' & Hs2' & Heq).
  exists s1, s2. split; [exact Hs1|]. split; [exact Hs2|].
  destruct (Heq alice) as [-> _].
  rewrite Hx in Hs2'. injection Hs2' as <-. exact Hpx.
Defined.

End LedgerMore.

(** * Further properties of the chain access layer *)

Module ChainMore.
Import Chain.

(** The three ways a [getTokenInfo] call can go. *)
Lemma getTokenInfo_cases rpc this a n r this' calls :
  getTokenInfo rpc this a n = (r, this', calls) ->
  let key := cacheKeyOf n a in
  (exists t, tokenCache this !! key = Some t /\ r = Resolved t /\
             this' = this /\ calls = []) \/
  (tokenCache this !! key = None /\ (exists m, r = Rejected m) /\ this' = this) \/
  (tokenCache this !! key = None /\
   exists provider t, providers this !! n = Some provider /\
     r = Resolved t /\ address t = a /\
     this' = mkService (providers this) (<[key := t]> (tokenCache this)) /\
     calls = [ call_symbol provider a; call_decimals provider a;
               call_totalSupply provider a ]).
Proof.
  intros H key. unfold getTokenInfo in H. fold key in H.
  destruct (tokenCache this !! key) as [t|] eqn:Hc.
  - injection H as <- <- <-. left. eauto.
  - destruct (providers this !! n) as [provider|] eqn:Hp.
    + destruct (promise_all3 _ _ _) as [[[sy de] su]|m].
      * injection H as <- <- <-. right. right. split; [done|].
        eexists _, _. repeat split; done.
      * injection H as <- <- <-. right. left. eauto.
    + injection H as <- <- <-. right. left. eauto.
Qed.

(** A token that [getTokenInfo] has returned is served from the cache
    from then on: the same call on the service it left returns the same
    record, issues no read and changes nothing. *)
Theorem getTokenInfo_then_cached (rpc : string -> string -> ERC20Reads)
    (this this' : BlockchainService) (tokenAddress network : string)
    (t : TokenInfo) (calls : list Call) :
  getTokenInfo rpc this tokenAddress network = (Resolved t, this', calls) ->
  getTokenInfo rpc this' tokenAddress network = (Resolved t, this', []).
Proof.
  intros H. pose proof H as Hcases. apply getTokenInfo_cases in Hcases.
  destruct Hcases as [(t' & Hc & [= <-] & -> & _)
                     |[(_ & [m [=]] & _)
                      |(_ & provider & t' & _ & [= <-] & _ & -> & _)]].
  - unfold getTokenInfo. by rewrite Hc.
  - unfold getTokenInfo. simpl. by rewrite lookup_insert_eq.
Qed.

Lemma getTokenInfo_then_cached_witness :
  exists this' calls,
    getTokenInfo sample_rpc sample_service "0xbeef" "ethereum"
      = (Resolved (mkTokenInfo "0xbeef" "DAI" 18 "5000"), this', calls) /\
    length calls = 3%nat /\
    getTokenInfo sample_rpc this' "0xbeef" "ethereum"
      = (Resolved (mkTokenInfo "0xbeef" "DAI" 18 "5000"), this', []).
Proof.
  assert (exists this' calls,
            getTokenInfo sample_rpc sample_service "0xbeef" "ethereum"
              = (Resolved (mkTokenInfo "0xbeef" "DAI" 18 "5000"), this', calls) /\
            length calls = 3%nat)
    as (this' & calls & H & Hlen) by (do 2 eexists; split; reflexivity).
  exists this', calls. split; [exact H|]. split; [exact Hlen|].
  exact (getTokenInfo_then_cached _ _ _ _ _ _ _ H).
Defined.

(** The cache only grows: whatever a [getTokenInfo] call does, every
    record that was cached stays cached unchanged (the total supply is
    never read again), and the providers are the same. *)
Theorem getTokenInfo_keeps_cache (rpc : string -> string -> ERC20Reads)
    (this : BlockchainService) (tokenAddress network key : string)
    (t : TokenInfo) :
  tokenCache this !! key = Some t ->
  let this' := (getTokenInfo rpc this tokenAddress network).1.2 in
  tokenCache this' !! key = Some t /\ providers this' = providers this.
Proof.
  intros Hk.
  destruct (getTokenInfo rpc this tokenAddress network) as [[r this'] calls] eqn:H.
  simpl. apply getTokenInfo_cases in H.
  destruct H as [(t' & _ & _ & -> & _)
                |[(_ & _ & ->)|(Hnone & provider & t' & _ & _ & _ & -> & _)]];
    try done.
  simpl. split; [|done]. rewrite lookup_insert_ne; [done|]. congruence.
Qed.

Lemma getTokenInfo_keeps_cache_witness :
  tokenCache sample_service !! "ethereum:0xc0ffee" = Some sample_weth /\
  tokenCache (getTokenInfo sample_rpc sample_service "0xbeef" "ethereum").1.2
    !! "ethereum:0xc0ffee" = Some sample_weth.
Proof.
  split; [reflexivity|].
  exact (proj1 (getTokenInfo_keeps_cache sample_rpc sample_service
                  "0xbeef" "ethereum" "ethereum:0xc0ffee" sample_weth eq_refl)).
Defined.

Lemma cacheKeyOf_inj n1 a1 n2 a2 :
  colon_free n1 = true -> colon_free n2 = true ->
  cacheKeyOf n1 a1 = cacheKeyOf n2 a2 -> n1 = n2 /\ a1 = a2.
Proof.
  unfold cacheKeyOf. revert n2.
  induction n1 as [|c1 n1 IH]; intros [|c2 n2] H1 H2 Heq.
  - change (String ":" a1 = String ":" a2) in Heq. by injection Heq as ->.
  - change (String ":" a1 = String c2 (n2 ++ ":" ++ a2)) in Heq.
    injection Heq as <- _.
    simpl in H2. by destruct (decide (":"%char = ":"%char)).
  - change (String c1 (n1 ++ ":" ++ a1) = String ":" a2) in Heq.
    injection Heq as -> _.
    simpl in H1. by destruct (decide (":"%char = ":"%char)).
  - change (String c1 (n1 ++ ":" ++ a1) = String c2 (n2 ++ ":" ++ a2)) in Heq.
    injection Heq as -> Heq.
    simpl in H1, H2. destruct (decide (c2 = ":"%char)); [done|].
    destruct (IH n2 H1 H2 Heq) as [-> ->]. done.
Qed.

Lemma well_keyed_new env : well_keyed (new_BlockchainService env).
Proof.
  split; [|intros key t H; simpl in H; by rewrite lookup_empty in H].
  unfold new_BlockchainService. cbv zeta. cbn [providers].
  assert (forall (l : list (string * option string)) (m : gmap string string),
            Forall (fun x => colon_free x.1 = true) l ->
            (forall n url, m !! n = Some url -> colon_free n = true) ->
            forall n url, fold_left set_provider l m !! n = Some url ->
                          colon_free n = true) as Hfold.
  { induction l as [|[network [u|]] l IH]; intros m Hl Hm n url; simpl.
    - apply Hm.
    - inversion Hl as [|? ? Hnet Hl']; subst. apply IH; [done|].
      unfold set_provider; simpl.
      destruct (decide (u = "")); [done|].
      intros n' url'. rewrite lookup_insert_Some.
      intros [[<- _]|[_ H]]; [done | by eapply Hm].
    - inversion Hl; subst. by apply IH. }
  apply Hfold; [by repeat constructor | by intros n url; rewrite lookup_empty].
Qed.

Lemma well_keyed_getTokenInfo rpc this a n :
  well_keyed this -> well_keyed (getTokenInfo rpc this a n).1.2.
Proof.
  intros [Hprov Hcache].
  destruct (getTokenInfo rpc this a n) as [[r this'] calls] eqn:H. simpl.
  apply getTokenInfo_cases in H.
  destruct H as [(t' & _ & _ & -> & _)
                |[(_ & _ & ->)|(_ & provider & t' & Hp & _ & Ha & -> & _)]];
    try done.
  split; [done|]. simpl. intros key t. rewrite lookup_insert_Some.
  intros [[<- <-]|[_ H]]; [|by apply Hcache].
  exists n. split; [by eapply Hprov | by rewrite Ha].
Qed.

Lemma well_keyed_lookups rpc requests : forall this,
  well_keyed this -> well_keyed (lookups rpc requests this).
Proof.
  induction requests as [|[a n] requests IH]; intros this H; [done|].
  apply IH. by apply well_keyed_getTokenInfo.
Qed.

(** The cache never hands out another token's record: in a service built
    by the constructor and used through [getTokenInfo], whatever is found
    under the key of a token address on a network without a colon in its
    name (as the four configured names are) is the record of that very
    address. *)
Theorem cache_hit_is_requested_token (rpc : string -> string -> ERC20Reads)
    (env : ProcessEnv) (requests : list (string * string))
    (tokenAddress network : string) (t : TokenInfo) :
  colon_free network = true ->
  let this := lookups rpc requests (new_BlockchainService env) in
  tokenCache this !! cacheKeyOf network tokenAddress = Some t ->
  address t = tokenAddress /\
  getTokenInfo rpc this tokenAddress network = (Resolved t, this, []).
Proof.
  intros Hn this Ht.
  destruct (well_keyed_lookups rpc requests _ (well_keyed_new env)) as [_ Hcache].
  fold this in Hcache. destruct (Hcache _ _ Ht) as (n' & Hn' & Hkey).
  apply cacheKeyOf_inj in Hkey as [_ ->]; [|done..].
  split; [done|]. unfold getTokenInfo. by rewrite Ht.
Qed.

Lemma cache_hit_is_requested_token_witness :
  let this := lookups sample_rpc [("0xbeef", "ethereum"); ("0xdead", "ethereum");
                                 ("0xbeef", "optimism"); ("0xf00d", "polygon")]
                      (new_BlockchainService sample_env) in
  colon_free "polygon" = true /\
  tokenCache this !! cacheKeyOf "polygon" "0xf00d"
    = Some (mkTokenInfo "0xf00d" "DAI" 18 "5000") /\
  tokenCache this !! cacheKeyOf "optimism" "0xbeef" = None /\
  getTokenInfo sample_rpc this "0xf00d" "polygon"
    = (Resolved (mkTokenInfo "0xf00d" "DAI" 18 "5000"), this, []).
Proof.
  intros this. split; [reflexivity|].
  assert (tokenCache this !! cacheKeyOf "polygon" "0xf00d"
          = Some (mkTokenInfo "0xf00d" "DAI" 18 "5000")) as Hhit by reflexivity.
  split; [exact Hhit|]. split; [reflexivity|].
  exact (proj2 (cache_hit_is_requested_token sample_rpc sample_env _
                  "0xf00d" "polygon" _ eq_refl Hhit)).
Defined.

(** Without the restriction the keys do collide: the template
    [network:address] cannot tell these two requests apart. *)
Example cacheKeyOf_collision :
  cacheKeyOf "a:b" "c" = cacheKeyOf "a" "b:c".
Proof. reflexivity. Qed.

Lemma getTokenInfo_hit rpc this a n t :
  tokenCache this !! cacheKeyOf n a = Some t ->
  getTokenInfo rpc this a n = (Resolved t, this, []).
Proof. intros H. unfold getTokenInfo. by rewrite H. Qed.

Lemma cacheKeyOf_inj_address n a b : cacheKeyOf n a = cacheKeyOf n b -> a = b.
Proof.
  unfold cacheKeyOf. induction n as [|c n IH]; intros H.
  - change (String ":" a = String ":" b) in H. by injection H.
  - change (String c (n ++ ":" ++ a) = String c (n ++ ":" ++ b)) in H.
    injection H as H. by apply IH.
Qed.

Lemma promise_all2_resolved {A B} (a : outcome A) (b : outcome B) x :
  promise_all2 a b = Resolved x -> a = Resolved x.1 /\ b = Resolved x.2.
Proof. destruct a, b; simpl; intros [= <-]; done. Qed.

Lemma promise_all4_resolved {A B C D} (a : outcome A) (b : outcome B)
    (c : outcome C) (d : outcome D) x :
  promise_all4 a b c d = Resolved x ->
  a = Resolved x.1.1.1 /\ b = Resolved x.1.1.2 /\
  c = Resolved x.1.2 /\ d = Resolved x.2.
Proof. destruct a, b, c, d; simpl; intros [= <-]; done. Qed.

(** A later [getPoolInfo] for a pool already fetched reads the pool
    afresh and the tokens from the cache.  After a successful call,
    whatever the chain answers by then (provided the pool still names
    the same two tokens and its reserves and supply can be read), the
    call on the service left behind issues the four pool reads only,
    returns the new reserves and supply together with the two token
    records of the first call, and changes nothing. *)
Theorem getPoolInfo_repeat (rpc rpc' : string -> string -> ERC20Reads)
    (pool_rpc pool_rpc' : string -> string -> PoolReads)
    (this this' : BlockchainService) (poolAddress network : string)
    (info : PoolInfo) (calls : list Read) :
  getPoolInfo rpc pool_rpc this poolAddress network = (Resolved info, this', calls) ->
  exists provider,
    providers this !! network = Some provider /\
    forall rs ts,
      read_token0 (pool_rpc' provider poolAddress)
        = read_token0 (pool_rpc provider poolAddress) ->
      read_token1 (pool_rpc' provider poolAddress)
        = read_token1 (pool_rpc provider poolAddress) ->
      read_getReserves (pool_rpc' provider poolAddress) = Resolved rs ->
      read_pool_totalSupply (pool_rpc' provider poolAddress) = Resolved ts ->
      getPoolInfo rpc' pool_rpc' this' poolAddress network
        = (Resolved
             (mkPoolInfo poolAddress (token0 info) (token1 info)
                (mkReserves (JS.N_toString rs.1.1) (JS.N_toString rs.1.2) rs.2)
                (JS.N_toString ts)),
           this',
           [ pool_token0 provider poolAddress; pool_token1 provider poolAddress;
             pool_getReserves provider poolAddress;
             pool_totalSupply_read provider poolAddress ]).
Proof.
  unfold getPoolInfo at 1.
  destruct (providers this !! network) as [provider|] eqn:Hp; [|done].
  destruct (promise_all4 _ _ _ _) as [[[[a0 a1] rs0] ts0]|m] eqn:H4; [|done].
  destruct (getTokenInfo rpc this a0 network) as [[r0 this0] c0] eqn:H0.
  destruct (getTokenInfo rpc this a1 network) as [[r1 this1] c1] eqn:H1.
  destruct (promise_all2 r0 r1) as [[t0 t1]|m] eqn:H2; [|done].
  apply promise_all2_resolved in H2 as [-> ->]. simpl.
  intros [= <- <- <-]. simpl.
  exists provider. split; [done|].
  (* where the two records sit in the two caches *)
  assert (tokenCache this0 !! cacheKeyOf network a0 = Some t0) as Hc0.
  { pose proof H0 as Hc. apply getTokenInfo_cases in Hc.
    destruct Hc as [(t & Hc & [= <-] & -> & _)
                   |[(_ & [m [=]] & _)
                    |(_ & pr & t & _ & [= <-] & Ha & -> & _)]]; [done|].
    simpl. by rewrite lookup_insert_eq. }
  assert ((tokenCache this0 ∪ tokenCache this1) !! cacheKeyOf network a1 = Some t1)
    as Hc1.
  { pose proof H1 as Hc. apply getTokenInfo_cases in Hc.
    destruct Hc as [(t & Hc & [= <-] & -> & _)
                   |[(_ & [m [=]] & _)
                    |(Hnone & pr & t & _ & [= <-] & Ha & -> & _)]].
    - (* the second token was cached before the call *)
      pose proof H0 as Hc'. apply getTokenInfo_cases in Hc'.
      destruct Hc' as [(t & _ & _ & -> & _)
                      |[(_ & _ & ->)
                       |(Hn0 & pr & t & _ & _ & _ & -> & _)]];
        try by apply lookup_union_Some_l.
      apply lookup_union_Some_l. simpl.
      rewrite lookup_insert_ne; [done|]. congruence.
    - (* the second token was fetched by the call *)
      destruct (tokenCache this0 !! cacheKeyOf network a1) as [x|] eqn:Hx.
      + apply lookup_union_Some_l. rewrite Hx. f_equal.
        pose proof H0 as Hc'. apply getTokenInfo_cases in Hc'.
        destruct Hc' as [(t & _ & _ & -> & _)
                        |[(_ & _ & ->)
                         |(Hn0 & pr' & t & _ & [= <-] & _ & -> & _)]];
          try congruence.
        simpl in Hx. rewrite lookup_insert_Some in Hx.
        destruct Hx as [[Hkey <-]|[_ Hx]]; [|congruence].
        apply cacheKeyOf_inj_address in Hkey.
        assert (a0 = a1) as E by congruence.
        rewrite E in H0. rewrite H0 in H1. by injection H1.
      + rewrite lookup_union_r by done. simpl. by rewrite lookup_insert_eq. }
  set (this' := mkService (providers this) (tokenCache this0 ∪ tokenCache this1)).
  assert (tokenCache this' !! cacheKeyOf network a0 = Some t0) as Hh0
    by (by apply lookup_union_Some_l).
  assert (tokenCache this' !! cacheKeyOf network a1 = Some t1) as Hh1 by done.
  apply promise_all4_resolved in H4 as (E0 & E1 & _ & _). simpl in E0, E1.
  intros rs ts Ht0 Ht1 Hrs Hts. unfold getPoolInfo.
  change (providers this') with (providers this). rewrite Hp.
  rewrite Ht0, Ht1, Hrs, Hts, E0, E1. simpl promise_all4. cbv iota beta.
  rewrite (getTokenInfo_hit rpc' this' a0 network t0 Hh0).
  rewrite (getTokenInfo_hit rpc' this' a1 network t1 Hh1). simpl.
  unfold this'.
  by rewrite (idemp_L (∪) (tokenCache this0 ∪ tokenCache this1)).
Qed.

Lemma getPoolInfo_repeat_witness :
  exists info this' calls,
    getPoolInfo sample_rpc sample_pool_rpc sample_service "0xpool" "ethereum"
      = (Resolved info, this', calls) /\
    length calls = 7%nat /\
    getPoolInfo later_rpc later_pool_rpc this' "0xpool" "ethereum"
      = (Resolved (mkPoolInfo "0xpool" (token0 info) (token1 info)
                     (mkReserves "710" "880" 1700000600) "43"),
         this',
         [ pool_token0 "https://eth.example" "0xpool";
           pool_token1 "https://eth.example" "0xpool";
           pool_getReserves "https://eth.example" "0xpool";
           pool_totalSupply_read "https://eth.example" "0xpool" ]) /\
    totalSupply (token1 info) = "5000".
Proof.
  assert (exists info this' calls,
            getPoolInfo sample_rpc sample_pool_rpc sample_service "0xpool" "ethereum"
              = (Resolved info, this', calls) /\ length calls = 7%nat /\
            totalSupply (token1 info) = "5000")
    as (info & this' & calls & H & Hlen & Hts)
    by (do 3 eexists; split; [reflexivity|split; reflexivity]).
  exists info, this', calls. split; [exact H|]. split; [exact Hlen|].
  split; [|exact Hts].
  destruct (getPoolInfo_repeat sample_rpc later_rpc sample_pool_rpc later_pool_rpc
              _ _ _ _ _ _ H) as (provider & Hp & Hrep).
  assert (provider = "https://eth.example") as -> by (by injection Hp).
  exact (Hrep (710, 880, 1700000600) 43 eq_refl eq_refl eq_refl eq_refl).
Defined.

Lemma getTokenInfo_extends rpc this a n key t :
  tokenCache this !! key = Some t ->
  tokenCache (getTokenInfo rpc this a n).1.2 !! key = Some t.
Proof.
  intros Hk.
  destruct (getTokenInfo rpc this a n) as [[r this'] calls] eqn:H.
  simpl. apply getTokenInfo_cases in H.
  destruct H as [(t' & _ & _ & -> & _)
                |[(_ & _ & ->)|(Hnone & provider & t' & _ & _ & _ & -> & _)]];
    try done.
  simpl. rewrite lookup_insert_ne; [done|]. congruence.
Qed.

(** [getPoolInfo] never disturbs the cache: whether it succeeds or fails,
    every record cached before the call is still cached unchanged, and
    the providers are the same; when one of the four pool reads fails, no
    token read is started and the service is left exactly as it was. *)
Theorem getPoolInfo_keeps_cache (rpc : string -> string -> ERC20Reads)
    (pool_rpc : string -> string -> PoolReads)
    (this : BlockchainService) (poolAddress network : string) :
  let result := getPoolInfo rpc pool_rpc this poolAddress network in
  providers result.1.2 = providers this /\
  (forall key t, tokenCache this !! key = Some t ->
                 tokenCache result.1.2 !! key = Some t) /\
  (forall provider,
     providers this !! network = Some provider ->
     let pool := pool_rpc provider poolAddress in
     is_rejected (read_token0 pool) || is_rejected (read_token1 pool)
       || is_rejected (read_getReserves pool)
       || is_rejected (read_pool_totalSupply pool) = true ->
     exists m,
       result = (Rejected ("Failed to fetch pool info: " ++ m), this,
                 [ pool_token0 provider poolAddress;
                   pool_token1 provider poolAddress;
                   pool_getReserves provider poolAddress;
                   pool_totalSupply_read provider poolAddress ])).
Proof.
  unfold getPoolInfo.
  destruct (providers this !! network) as [provider|] eqn:Hp;
    [|by repeat split].
  destruct (promise_all4 _ _ _ _) as [[[[a0 a1] rs] ts]|m] eqn:H4.
  - pose proof (getTokenInfo_extends rpc this a0 network) as He0.
    destruct (getTokenInfo rpc this a0 network) as [[r0 this0] c0].
    destruct (getTokenInfo rpc this a1 network) as [[r1 this1] c1].
    assert (forall key t, tokenCache this !! key = Some t ->
              (tokenCache this0 ∪ tokenCache this1) !! key = Some t) as Hkeep.
    { intros key t Hk. apply lookup_union_Some_l. by apply He0. }
    split; [by destruct (promise_all2 r0 r1) as [[? ?]|?]|].
    split; [by destruct (promise_all2 r0 r1) as [[? ?]|?]|].
    intros pr [= <-] Hrej. exfalso. revert H4 Hrej. cbv zeta.
    by destruct (read_token0 _), (read_token1 _), (read_getReserves _),
                (read_pool_totalSupply _).
  - split; [done|]. split; [done|].
    intros pr [= <-] _. eauto.
Qed.

Lemma getPoolInfo_keeps_cache_witness :
  let failing (rpcUrl poolAddress : string) :=
    mkPoolReads (Resolved "0xc0ffee") (Rejected "execution reverted")
                (Resolved (1, 2, 3)) (Resolved 4) in
  providers sample_service !! "ethereum" = Some "https://eth.example" /\
  exists m calls,
    getPoolInfo sample_rpc failing sample_service "0xpool" "ethereum"
      = (Rejected ("Failed to fetch pool info: " ++ m), sample_service, calls).
Proof.
  intros failing. split; [reflexivity|].
  destruct (getPoolInfo_keeps_cache sample_rpc failing sample_service
              "0xpool" "ethereum") as (_ & _ & H).
  destruct (H "https://eth.example" eq_refl eq_refl) as [m Hm].
  exists m. eexists. exact Hm.
Defined.

Lemma promise_all_resolved {A} (ps : list (outcome A)) xs :
  promise_all ps = Resolved xs -> ps = map Resolved xs.
Proof.
  revert xs. induction ps as [|[x|m] ps IH]; intros xs; simpl.
  - by intros [= <-].
  - destruct (promise_all ps) as [ys|]; [|done].
    intros [= <-]. simpl. by rewrite (IH ys).
  - done.
Qed.

(** [getWalletTokenBalances] answers in request order: on success the
    result has one entry per requested token address, the entry at each
    position carrying the balance read for that address and the token
    record that [getTokenInfo] gives for it; with no address requested
    it returns the empty list without any read. *)
Theorem getWalletTokenBalances_in_order (rpc : string -> string -> ERC20Reads)
    (balance_rpc : string -> string -> string -> outcome N)
    (this this' : BlockchainService) (walletAddress network provider : string)
    (tokenAddresses : list string) (balances : list TokenBalance)
    (calls : list Read) :
  providers this !! network = Some provider ->
  getWalletTokenBalances rpc balance_rpc this walletAddress tokenAddresses network
    = (Resolved balances, this', calls) ->
  Forall2
    (fun tokenAddress entry =>
       exists b t,
         balance_rpc provider tokenAddress walletAddress = Resolved b /\
         (getTokenInfo rpc this tokenAddress network).1.1 = Resolved t /\
         entry = mkTokenBalance (address t) (symbol t) (decimals t)
                                (totalSupply t) (JS.N_toString b))
    tokenAddresses balances /\
  (tokenAddresses = [] -> balances = [] /\ this' = this /\ calls = []).
Proof.
  intros Hp. unfold getWalletTokenBalances. rewrite Hp.
  destruct (promise_all _) as [xs|m] eqn:Hall; [|done].
  intros [= <- <- <-]. split.
  - apply promise_all_resolved in Hall. rewrite !map_map in Hall.
    clear Hp. revert xs Hall.
    induction tokenAddresses as [|a l IH]; intros xs Hall.
    + destruct xs; [constructor|done].
    + destruct xs as [|x xs]; [done|]. simpl in Hall.
      injection Hall as Hx Hrest. constructor; [|by apply IH].
      unfold tokenBalance in Hx.
      destruct (getTokenInfo rpc this a network) as [[r s0] c0]. simpl in Hx.
      destruct (balance_rpc provider a walletAddress) as [b|]; [|done].
      destruct r as [t|]; [|done]. simpl in Hx. injection Hx as <-.
      by exists b, t.
  - intros ->. simpl in *. injection Hall as <-. by destruct this.
Qed.

Lemma getWalletTokenBalances_in_order_witness :
  providers sample_service !! "ethereum" = Some "https://eth.example" /\
  exists this' calls,
    getWalletTokenBalances sample_rpc sample_balance_rpc sample_service
        "0xwallet" ["0xbeef"; "0xc0ffee"; "0xbeef"] "ethereum"
      = (Resolved [ mkTokenBalance "0xbeef" "DAI" 18 "5000" "250";
                    mkTokenBalance "0xc0ffee" "WETH" 18 "1000" "250";
                    mkTokenBalance "0xbeef" "DAI" 18 "5000" "250" ],
         this', calls) /\
    length calls = 9%nat.
Proof.
  split; [reflexivity|].
  assert (exists bs this' calls,
            getWalletTokenBalances sample_rpc sample_balance_rpc sample_service
                "0xwallet" ["0xbeef"; "0xc0ffee"; "0xbeef"] "ethereum"
              = (Resolved bs, this', calls) /\ length calls = 9%nat /\
            bs = [ mkTokenBalance "0xbeef" "DAI" 18 "5000" "250";
                   mkTokenBalance "0xc0ffee" "WETH" 18 "1000" "250";
                   mkTokenBalance "0xbeef" "DAI" 18 "5000" "250" ])
    as (bs & this' & calls & H & Hlen & Hbs)
    by (do 3 eexists; repeat split; reflexivity).
  pose proof (getWalletTokenBalances_in_order sample_rpc sample_balance_rpc
                sample_service this' "0xwallet" "ethereum" "https://eth.example"
                _ _ _ eq_refl H) as [Hin _].
  exists this', calls. rewrite <- Hbs. split; [exact H | exact Hlen].
Defined.

End ChainMore.

(** * Properties of the client binding *)

Module ClientProofs.
Import Chain Client.

Lemma N_toString_inj a b : JS.N_toString a = JS.N_toString b -> a = b.
Proof.
  intros H. pose proof (GraphProofs.BigInt_N_toString a) as Ha.
  rewrite H, GraphProofs.BigInt_N_toString in Ha. injection Ha. lia.
Qed.

Lemma lookup_set_address_ne k v m j :
  k <> j -> set_address k v m !! j = m !! j.
Proof.
  intros H. unfold set_address. destruct v as [a|]; [|done].
  destruct (decide (a = "")); [done|]. by rewrite lookup_insert_ne.
Qed.

Lemma lookup_set_address_eq k v m :
  set_address k v m !! k =
  match v with
  | Some a => if decide (a = "") then m !! k else Some a
  | None => m !! k
  end.
Proof.
  unfold set_address. destruct v as [a|]; [|done].
  destruct (decide (a = "")); [done|]. by rewrite lookup_insert_eq.
Qed.

Lemma lookup_set_address_Some k v m j a :
  set_address k v m !! j = Some a ->
  (j = k /\ v = Some a /\ a <> "") \/ m !! j = Some a.
Proof.
  unfold set_address. destruct v as [b|]; [|by right].
  destruct (decide (b = "")); [by right|].
  rewrite lookup_insert_Some. intros [[<- <-]|[_ H]]; [by left|by right].
Qed.

(** What the table built from the environment holds for a chain. *)
Lemma getContractAddresses_lookup env chainId :
  getContractAddresses env !! JS.N_toString chainId =
  match configured env chainId with
  | Some a => if decide (a = "") then None else Some a
  | None => None
  end.
Proof.
  unfold getContractAddresses, configured.
  destruct (N.eqb_spec chainId 1) as [->|H1].
  { rewrite !lookup_set_address_ne by done. by rewrite lookup_set_address_eq. }
  destruct (N.eqb_spec chainId 10) as [->|H10].
  { rewrite !lookup_set_address_ne by done. rewrite lookup_set_address_eq.
    by rewrite lookup_set_address_ne. }
  destruct (N.eqb_spec chainId 137) as [->|H137].
  { rewrite !lookup_set_address_ne by done. rewrite lookup_set_address_eq.
    by rewrite !lookup_set_address_ne. }
  destruct (N.eqb_spec chainId 42161) as [->|H42161].
  { rewrite lookup_set_address_eq. by rewrite !lookup_set_address_ne. }
  assert (forall k n, k = JS.N_toString n -> n <> chainId ->
                      k <> JS.N_toString chainId) as Hne.
  { intros k n -> Hn E. by apply N_toString_inj in E. }
  rewrite !lookup_set_address_ne; [done|..];
    [by apply (Hne _ 1)|by apply (Hne _ 10)
    |by apply (Hne _ 137)|by apply (Hne _ 42161)].
Qed.

Lemma fallbackAddresses_lookup chainId a :
  fallbackAddresses !! JS.N_toString chainId = Some a ->
  a = FALLBACK_DEV_ADDRESS /\ supported chainId.
Proof.
  unfold fallbackAddresses, supported.
  rewrite !lookup_insert_Some, lookup_empty.
  intros [[E <-]|[_ [[E <-]|[_ [[E <-]|[_ [[E <-]|[_ ?]]]]]]]]; try done.
  - apply (N_toString_inj 1 chainId) in E. auto.
  - apply (N_toString_inj 10 chainId) in E. auto.
  - apply (N_toString_inj 137 chainId) in E. auto.
  - apply (N_toString_inj 42161 chainId) in E. auto.
Qed.

(** A connection is made either to the address configured for the chain,
    silently, or (only in a development build, and only when nothing is
    configured) to the placeholder address, with a warning on the
    console.  So a production build never reaches the placeholder, and
    only the four listed chains can be connected to at all. *)
Theorem connectToContract_address (env : ImportMetaEnv) (this this' : ContractService)
    (chainId : N) (a : string) (warnings : list string) :
  connectToContract env this chainId = (Resolved a, this', warnings) ->
  getContract this' = Resolved a /\ supported chainId /\
  ((configured env chainId = Some a /\ a <> "" /\ warnings = []) \/
   (DEV env = true /\ a = FALLBACK_DEV_ADDRESS /\ length warnings = 1%nat /\
    (configured env chainId = None \/ configured env chainId = Some ""))).
Proof.
  unfold connectToContract. destruct (signer this) as [sg|]; [|done].
  rewrite getContractAddresses_lookup.
  destruct (configured env chainId) as [c|] eqn:Hc.
  - destruct (decide (c = "")) as [->|Hne].
    + destruct (DEV env); [|done].
      destruct (fallbackAddresses !! JS.N_toString chainId) as [f|] eqn:Hf;
        [|done].
      intros [= <- <- <-]. apply fallbackAddresses_lookup in Hf as [-> Hs].
      split; [done|]. split; [done|]. right. auto.
    + intros [= <- <- <-]. split; [done|]. split; [|by left].
      unfold configured in Hc. unfold supported.
      destruct (N.eqb_spec chainId 1); [auto|].
      destruct (N.eqb_spec chainId 10); [auto|].
      destruct (N.eqb_spec chainId 137); [auto|].
      destruct (N.eqb_spec chainId 42161); [auto|done].
  - destruct (DEV env); [|done].
    destruct (fallbackAddresses !! JS.N_toString chainId) as [f|] eqn:Hf;
      [|done].
    intros [= <- <- <-]. apply fallbackAddresses_lookup in Hf as [-> Hs].
    split; [done|]. split; [done|]. right. auto.
Qed.

Lemma connectToContract_address_witness :
  (exists this', connectToContract production ready 1 = (Resolved "0xAAAA", this', [])) /\
  (exists this' w, connectToContract development ready 137
                   = (Resolved FALLBACK_DEV_ADDRESS, this', w) /\ length w = 1%nat) /\
  (exists m, connectToContract production ready 137 = (Rejected m, ready, [])).
Proof.
  assert (exists this', connectToContract production ready 1
                        = (Resolved "0xAAAA", this', [])) as [this' H]
    by (eexists; reflexivity).
  pose proof (connectToContract_address _ _ _ _ _ _ H) as _.
  split; [by exists this'|].
  split; [do 2 eexists; split; reflexivity | eexists; reflexivity].
Defined.

(** A failed connection changes nothing: the service keeps the contract
    it was bound to before (so [isConnected] and [getContract] still
    answer for the old chain), and a chain other than the four listed
    ones always fails, in development and in production. *)
Theorem connectToContract_failure (env : ImportMetaEnv) (this : ContractService)
    (chainId : N) :
  (forall m this' warnings,
     connectToContract env this chainId = (Rejected m, this', warnings) ->
     this' = this /\ isConnected this' = isConnected this /\
     getContract this' = getContract this) /\
  (~ supported chainId ->
   exists m warnings,
     connectToContract env this chainId = (Rejected m, this, warnings)).
Proof.
  split.
  - intros m this' warnings. unfold connectToContract.
    destruct (signer this); [|by intros [= _ <- _]].
    destruct (getContractAddresses env !! JS.N_toString chainId); [done|].
    destruct (DEV env); [|by intros [= _ <- _]].
    destruct (fallbackAddresses !! JS.N_toString chainId); [done|].
    by intros [= _ <- _].
  - intros Hns. unfold connectToContract.
    destruct (signer this); [|eauto].
    rewrite getContractAddresses_lookup.
    assert (configured env chainId = None) as ->.
    { unfold configured, supported in *.
      destruct (N.eqb_spec chainId 1); [tauto|].
      destruct (N.eqb_spec chainId 10); [tauto|].
      destruct (N.eqb_spec chainId 137); [tauto|].
      destruct (N.eqb_spec chainId 42161); [tauto|done]. }
    destruct (DEV env); [|eauto].
    destruct (fallbackAddresses !! JS.N_toString chainId) as [f|] eqn:Hf;
      [|eauto].
    apply fallbackAddresses_lookup in Hf as [_ Hs]. done.
Qed.

Lemma connectToContract_failure_witness :
  exists bound,
    connectToContract development ready 1 = (Resolved "0xAAAA", bound, []) /\
    ~ supported 56 /\
    (exists m w, connectToContract development bound 56 = (Rejected m, bound, w)) /\
    getContract bound = Resolved "0xAAAA".
Proof.
  assert (exists bound, connectToContract development ready 1
                        = (Resolved "0xAAAA", bound, [])) as [bound H]
    by (eexists; reflexivity).
  assert (~ supported 56) as Hns by (unfold supported; lia).
  exists bound. split; [exact H|]. split; [exact Hns|].
  split; [exact (proj2 (connectToContract_failure development bound 56) Hns)|].
  injection H as <-. reflexivity.
Defined.

Lemma promise_all_Forall2 {A B} (f : A -> outcome B) (l : list A) (ys : list B) :
  promise_all (map f l) = Resolved ys -> Forall2 (fun x y => f x = Resolved y) l ys.
Proof.
  revert ys. induction l as [|x l IH]; intros ys; simpl.
  - intros [= <-]. constructor.
  - destruct (f x) as [y|] eqn:Hx; [|done].
    destruct (promise_all (map f l)) as [ys'|]; [|done].
    intros [= <-]. constructor; [done|by apply IH].
Qed.

Lemma transform_flags (formatEther : N -> string) (formatUnits : N -> N -> string)
    (toNumber : N -> outcome N) (address_string : Ledger.address -> string)
    (src : list Ledger.Position) (ps : list Position) :
  Forall2 (fun x y => transform formatEther formatUnits toNumber address_string x
                      = Resolved y) src ps ->
  Forall (fun q => Ledger.active q = true) src ->
  Forall (fun p => active p = Some true) ps.
Proof.
  induction 1 as [|pos p l ps' Hp _ IH]; intros Hsrc; [constructor|].
  inversion Hsrc as [|? ? Hpos Hrest]; subst.
  constructor; [|by apply IH].
  unfold transform in Hp.
  destruct (toNumber (Ledger.timestamp pos)); [|done].
  injection Hp as <-. simpl. by rewrite Hpos.
Qed.

(** What the client lists is what the ledger counts: when the bound
    contract's ledger was reached by transactions from the empty ledger,
    every position [getUserPositions] returns is flagged active, there
    are [getPositionCount] of them, and the filter of
    [getActivePositions] removes nothing. *)
Theorem getActivePositions_same (formatEther : N -> string)
    (formatUnits : N -> N -> string) (toNumber : N -> outcome N)
    (address_string : Ledger.address -> string)
    (parse_address : string -> Ledger.address)
    (call_exception : Ledger.Error -> string)
    (ledger_at : string -> Ledger.State)
    (this : ContractService) (c userAddress : string) (txs : list Ledger.Tx)
    (positions : list Position) :
  contract this = Some c ->
  ledger_at c = Ledger.run txs Ledger.genesis ->
  getUserPositions formatEther formatUnits toNumber address_string
    parse_address call_exception ledger_at this userAddress = Resolved positions ->
  Forall (fun p => active p = Some true) positions /\
  N.of_nat (length positions)
    = Ledger.getPositionCount (ledger_at c) (parse_address userAddress) /\
  getActivePositions formatEther formatUnits toNumber address_string
    parse_address call_exception ledger_at this userAddress = Resolved positions.
Proof.
  intros Hc Hl. unfold getActivePositions, getUserPositions. rewrite Hc.
  assert (Ledger.consistent (ledger_at c)) as Hcons
    by (rewrite Hl; apply LedgerProofs.consistent_run,
                          LedgerProofs.consistent_genesis).
  rewrite (LedgerProofs.getAllPositions_consistent _ _ Hcons).
  intros Hall. pose proof Hall as HF. apply promise_all_Forall2 in HF.
  assert (Forall (fun p => active p = Some true) positions) as Hact
    by (eapply transform_flags; [exact HF|apply LedgerProofs.activeOf_all_active]).
  split; [done|]. split.
  - rewrite <- (Forall2_length _ _ _ HF). unfold Ledger.getPositionCount.
    symmetry. apply Hcons.
  - rewrite Hall. f_equal. clear -Hact.
    induction Hact as [|p l Hp _ IH]; [done|].
    simpl. rewrite Hp. simpl. by rewrite IH.
Qed.

Lemma getActivePositions_same_witness :
  let formatEther n := JS.N_toString n in
  let formatUnits (n d : N) := JS.N_toString n in
  let toNumber (n : N) : outcome N := Resolved n in
  let address_string (a : Ledger.address) := JS.N_toString a in
  let parse_address (u : string) : Ledger.address := Ledger.alice in
  let call_exception (e : Ledger.Error) := "call revert exception" in
  let ledger_at (c : string) := Ledger.run Ledger.sample_txs Ledger.genesis in
  let this := mkContractService (Some "metamask") (Some "metamask") (Some "0xAAAA") in
  let listed := [ mkPosition "3735928559" "Uniswap" "7" 101 (Some "1900") (Some true) ] in
  getUserPositions formatEther formatUnits toNumber address_string
    parse_address call_exception ledger_at this "0xalice" = Resolved listed /\
  getActivePositions formatEther formatUnits toNumber address_string
    parse_address call_exception ledger_at this "0xalice" = Resolved listed.
Proof.
  intros formatEther formatUnits toNumber address_string parse_address
         call_exception ledger_at this listed.
  assert (getUserPositions formatEther formatUnits toNumber address_string
            parse_address call_exception ledger_at this "0xalice"
          = Resolved listed) as H by reflexivity.
  split; [exact H|].
  exact (proj2 (proj2 (getActivePositions_same formatEther formatUnits toNumber
                         address_string parse_address call_exception ledger_at
                         this "0xAAAA" "0xalice" Ledger.sample_txs listed
                         eq_refl eq_refl H))).
Defined.

End ClientProofs.

(** * Further properties of the protocol adapter layer *)

Module GraphMore.
Import JS Graph JSProofs GraphProofs.

Lemma round_half_even_multiple (k q : Z) :
  (0 < q)%Z -> round_half_even (k * q) q = k.
Proof.
  intros Hq. unfold round_half_even.
  rewrite Z.div_mul, Z.mod_mul by lia.
  change (2 * 0)%Z with 0%Z.
  destruct (Z.compare_spec 0 q); lia.
Qed.

Lemma floor_log2_small (a q : Z) :
  (0 < a < 2 ^ 53)%Z -> (0 < q)%Z ->
  let p := (a * q)%Z in
  let e0 := (Z.log2 p - Z.log2 q)%Z in
  ((if (0 <=? e0)%Z
    then (if (q * 2 ^ e0 <=? p)%Z then e0 else e0 - 1)%Z
    else (if (q <=? p * 2 ^ (- e0))%Z then e0 else e0 - 1)%Z) <= 52)%Z.
Proof.
  intros Ha Hq p e0.
  assert (Z.log2 a < 53)%Z as Hla by (apply Z.log2_lt_pow2; lia).
  pose proof (Z.log2_mul_above a q ltac:(lia) ltac:(lia)) as Hup.
  fold p in Hup.
  destruct (Z.leb_spec 0 e0) as [He|He].
  - destruct (Z.leb_spec (q * 2 ^ e0) p) as [Hle|Hgt]; [|unfold e0 in *; lia].
    assert (2 ^ e0 <= a)%Z as Hpow by (unfold p in Hle; nia).
    assert (e0 < 53)%Z; [|lia].
    apply (Z.pow_lt_mono_r_iff 2); lia.
  - destruct (q <=? p * 2 ^ (- e0))%Z; lia.
Qed.

Lemma binary64_of_ratio_integer (negative : bool) (a q : Z) :
  (0 <= a < 2 ^ 53)%Z -> (0 < q)%Z ->
  exists m e, binary64_of_ratio negative (a * q) q = Finite m e /\
    (inject_Z m * Qpower 2 e == inject_Z (if negative then - a else a))%Q.
Proof.
  intros Ha Hq.
  destruct (Z.eq_dec a 0%Z) as [->|Hne].
  { exists 0%Z, 0%Z. split; [done|]. by destruct negative. }
  pose proof (floor_log2_small a q ltac:(lia) Hq) as HE. cbv zeta in HE.
  unfold binary64_of_ratio.
  destruct (Z.eqb_spec (a * q) 0) as [|_]; [nia|].
  set (E := if (0 <=? Z.log2 (a * q) - Z.log2 q)%Z then _ else _) in *.
  set (e := Z.max (E - 52) (-1074)).
  assert (e <= 0)%Z as He by (unfold e; lia).
  assert (-1074 <= e)%Z as He' by (unfold e; lia).
  set (P := (2 ^ (- e))%Z).
  assert (0 < P)%Z as HP by (apply Z.pow_pos_nonneg; lia).
  assert ((if (0 <=? e)%Z then round_half_even (a * q) (q * 2 ^ e)
           else round_half_even (a * q * P) q) = (a * P)%Z) as ->.
  { destruct (Z.leb_spec 0 e) as [H0|H0].
    - assert (e = 0%Z) as E0 by lia. unfold P. rewrite E0. simpl.
      rewrite !Z.mul_1_r. by apply round_half_even_multiple.
    - replace (a * q * P)%Z with (a * P * q)%Z by lia.
      by apply round_half_even_multiple. }
  destruct (Z.ltb_spec 971 e) as [|_]; [lia|].
  destruct (Z.eqb_spec e 971) as [|_]; [lia|]. simpl.
  eexists _, _. split; [reflexivity|].
  assert (2 ^ e == / inject_Z P)%Q as ->.
  { replace e with (- - e)%Z by lia. rewrite Qpower_opp.
    apply Qinv_comp. symmetry. apply (Zpower_Qpower 2 (- e)). lia. }
  assert (~ inject_Z P == 0)%Q as HP0.
  { intros Hz. unfold Qeq in Hz. simpl in Hz. lia. }
  destruct negative.
  - replace (- (a * P))%Z with ((- a) * P)%Z by lia.
    rewrite inject_Z_mult. by field.
  - rewrite inject_Z_mult. by field.
Qed.


Lemma formatTokenAmount_N_toString (n : N) (d : nat) :
  formatTokenAmount (N_toString n) d =
  Some (binary64_of_ratio false
          (Z.of_N (n * 10 ^ N.of_nat (Nat.max d 1 - d)))
          (10 ^ Z.of_nat (Nat.max d 1))).
Proof.
  unfold formatTokenAmount.
  pose proof (BigInt_N_toString n) as Hbig.
  destruct (decide (N_toString n = "" \/ N_toString n = "0")) as [[E|E]|_].
  - rewrite E in Hbig. injection Hbig as Hn.
    assert (n = 0) as -> by lia. done.
  - rewrite E in Hbig. injection Hbig as Hn.
    assert (n = 0) as -> by lia. done.
  - rewrite Hbig. unfold parseFloat. by rewrite parse_formattedValue.
Qed.

Lemma Z_of_N_scaled (a : N) (k : nat) :
  Z.of_N (a * 10 ^ N.of_nat k) = (Z.of_N a * 10 ^ Z.of_nat k)%Z.
Proof. by rewrite N2Z.inj_mul, N2Z.inj_pow, nat_N_Z. Qed.

(** An amount of [a] whole tokens, [a] below 2^53, is formatted without
    any rounding, whatever the number of decimals. *)
Theorem formatTokenAmount_whole_tokens (a : N) (d : nat) :
  a < 2 ^ 53 ->
  exists m e,
    formatTokenAmount (N_toString (a * 10 ^ N.of_nat d)) d = Some (Finite m e) /\
    (inject_Z m * Qpower 2 e == inject_Z (Z.of_N a))%Q.
Proof.
  intros Ha. rewrite formatTokenAmount_N_toString.
  rewrite <- N.mul_assoc, <- N.pow_add_r.
  replace (N.of_nat d + N.of_nat (Nat.max d 1 - d)) with (N.of_nat (Nat.max d 1))
    by lia.
  rewrite Z_of_N_scaled.
  destruct (binary64_of_ratio_integer false (Z.of_N a)
              (10 ^ Z.of_nat (Nat.max d 1))) as (m & e & -> & Hval).
  - change (2 ^ 53)%Z with (Z.of_N (2 ^ 53)). lia.
  - apply Z.pow_pos_nonneg; lia.
  - by exists m, e.
Qed.

Lemma formatTokenAmount_whole_tokens_witness :
  exists m e,
    formatTokenAmount "5000000" 6 = Some (Finite m e) /\
    (inject_Z m * Qpower 2 e == 5)%Q.
Proof. apply (formatTokenAmount_whole_tokens 5 6). reflexivity. Defined.

Lemma BigInt_toString_opp (x : N) :
  BigInt_toString (- Z.of_N x) =
  if x =? 0 then "0" else String "-" (N_toString x).
Proof. by destruct x. Qed.

Lemma formattedValue_opp (n : N) (d : nat) :
  formattedValue (- Z.of_N n) d =
  (BigInt_toString (- Z.of_N (n / 10 ^ N.of_nat d)) ++ "." ++
   padStart (BigInt_toString (- Z.of_N (n mod 10 ^ N.of_nat d))) d "0")%string.
Proof.
  unfold formattedValue.
  replace (10 ^ Z.of_nat d)%Z with (Z.of_N (10 ^ N.of_nat d))
    by (rewrite N2Z.inj_pow, nat_N_Z; done).
  assert (Z.of_N (10 ^ N.of_nat d) <> 0%Z) as HD.
  { pose proof (N.pow_nonzero 10 (N.of_nat d) ltac:(lia)). lia. }
  rewrite Z.quot_opp_l, Z.rem_opp_l by done.
  by rewrite <- N2Z.inj_quot, <- N2Z.inj_rem.
Qed.

Lemma BigInt_negative (n : N) :
  BigInt (String "-" (N_toString n)) = Some (- Z.of_N n)%Z.
Proof.
  destruct (N_toString_digits n) as (ds & -> & Hds & Hv & Hlen & _).
  unfold BigInt.
  destruct (decide ("-"%char = "-"%char)) as [_|]; [|done].
  rewrite read_all_digits, Hv by done.
  destruct ds; [simpl in Hlen; lia|done].
Qed.

Lemma zeros_lt10 (z : nat) : Forall (fun d => d < 10) (repeat 0 z).
Proof. apply Forall_forall. intros x Hx%list_elem_of_In%repeat_spec. lia. Qed.

(** Reading [ds1 "." 0...0 rest], where [rest] does not start with a
    digit, stops in front of [rest]. *)
Lemma parse_unsigned_zeros (ds1 : list N) (z : nat) (rest : string) :
  Forall (fun d => d < 10) ds1 -> (1 <= length ds1)%nat ->
  (rest = EmptyString \/ exists c s, rest = String c s /\ char_digit c = None) ->
  parse_unsigned (of_digits ds1 ++ "." ++ of_digits (repeat 0 z) ++ rest)
  = Some (digits_value ds1 0 * 10 ^ N.of_nat z, z).
Proof.
  intros Hds1 Hlen Hrest. unfold parse_unsigned.
  rewrite read_digits_of_digits by done.
  change ("." ++ of_digits (repeat 0 z) ++ rest)%string
    with (String "." (of_digits (repeat 0 z) ++ rest)).
  cbn [read_digits]. change (char_digit ".") with (@None N). cbv iota beta.
  destruct (decide ("."%char = "."%char)) as [_|]; [|done].
  rewrite read_digits_of_digits by apply zeros_lt10.
  rewrite digits_value_zeros, repeat_length.
  assert (forall acc c, read_digits rest acc c = (acc, c, rest)) as ->.
  { intros acc c. destruct Hrest as [->|(c' & s & -> & Hc)]; [done|].
    simpl. by rewrite Hc. }
  destruct ds1; [simpl in Hlen; lia|done].
Qed.

(** The fraction part of the string built for a negative amount: either
    all zeros, or zeros followed by a minus sign. *)
Lemma padStart_negative_remainder (r : N) (d : nat) :
  exists z rest,
    padStart (BigInt_toString (- Z.of_N r)) d "0"
      = (of_digits (repeat 0 z) ++ rest)%string /\
    (rest = EmptyString \/ exists c s, rest = String c s /\ char_digit c = None).
Proof.
  rewrite BigInt_toString_opp. destruct (N.eqb_spec r 0) as [_|_].
  - exists (S (d - 1)), EmptyString. split; [|by left].
    change "0"%string with (of_digits [0]). rewrite padStart_of_digits.
    rewrite append_empty_r. f_equal. simpl length.
    by rewrite <- repeat_cons.
  - exists (d - S (String.length (N_toString r)))%nat, (String "-" (N_toString r)).
    split; [|right; by eexists _, _].
    unfold padStart. f_equal. simpl String.length.
    induction (d - S _)%nat as [|k IH]; simpl; [done|]. by rewrite IH.
Qed.

(** A negative amount loses its fraction: what is returned is minus the
    whole-token part of its magnitude (zero when that is below one
    token). *)
Theorem formatTokenAmount_negative (n : N) (d : nat) :
  0 < n -> n / 10 ^ N.of_nat d < 2 ^ 53 ->
  exists m e,
    formatTokenAmount (BigInt_toString (- Z.of_N n)) d = Some (Finite m e) /\
    (inject_Z m * Qpower 2 e == - inject_Z (Z.of_N (n / 10 ^ N.of_nat d)))%Q.
Proof.
  intros Hn Hq. rewrite (BigInt_toString_opp n).
  destruct (N.eqb_spec n 0) as [|_]; [lia|].
  unfold formatTokenAmount.
  destruct (decide (String "-" (N_toString n) = "" \/
                    String "-" (N_toString n) = "0")) as [[E|E]|_]; [done..|].
  rewrite BigInt_negative, formattedValue_opp.
  set (q := n / 10 ^ N.of_nat d) in *.
  destruct (padStart_negative_remainder (n mod 10 ^ N.of_nat d) d)
    as (z & rest & -> & Hrest).
  destruct (N_toString_digits q) as (ds1 & Hds1 & Hlt1 & Hv1 & Hlen1 & _).
  pose proof (parse_unsigned_zeros ds1 z rest Hlt1 Hlen1 Hrest) as Hparse.
  rewrite Hv1 in Hparse.
  rewrite BigInt_toString_opp. unfold parseFloat.
  destruct (N.eqb_spec q 0) as [E0|Hq0].
  - rewrite E0 in *. exists 0%Z, 0%Z. split; [|done].
    change (N_toString 0) with (of_digits [0]) in Hds1.
    assert (parse_decimal_prefix ("0" ++ "." ++ of_digits (repeat 0 z) ++ rest)
            = Some (false, 0, z)) as ->; [|done].
    rewrite <- Hds1 in Hparse.
    change (of_digits [0] ++ "." ++ of_digits (repeat 0 z) ++ rest)%string
      with ("0" ++ "." ++ of_digits (repeat 0 z) ++ rest)%string in Hparse.
    change ("0" ++ "." ++ of_digits (repeat 0 z) ++ rest)%string
      with (String "0" ("." ++ of_digits (repeat 0 z) ++ rest)) in *.
    unfold parse_decimal_prefix.
    destruct (decide ("0"%char = "-"%char)) as [|_]; [done|].
    destruct (decide ("0"%char = "+"%char)) as [|_]; [done|].
    by rewrite Hparse.
  - change (String "-" (N_toString q) ++ "." ++ of_digits (repeat 0 z) ++ rest)%string
      with (String "-" (N_toString q ++ "." ++ of_digits (repeat 0 z) ++ rest)).
    unfold parse_decimal_prefix.
    destruct (decide ("-"%char = "-"%char)) as [_|]; [|done].
    rewrite Hds1, Hparse. simpl option_map. cbv iota beta.
    rewrite Z_of_N_scaled.
    destruct (binary64_of_ratio_integer true (Z.of_N q) (10 ^ Z.of_nat z))
      as (m & e & -> & Hval).
    + change (2 ^ 53)%Z with (Z.of_N (2 ^ 53)). lia.
    + apply Z.pow_pos_nonneg; lia.
    + exists m, e. split; [done|]. rewrite Hval. by rewrite inject_Z_opp.
Qed.

Lemma formatTokenAmount_negative_witness :
  exists m e,
    formatTokenAmount "-1500000" 6 = Some (Finite m e) /\
    (inject_Z m * Qpower 2 e == - (1))%Q.
Proof. apply (formatTokenAmount_negative 1500000 6); reflexivity. Defined.


Lemma new_GraphService_lookup (protocol : string) :
  new_GraphService !! protocol =
  if decide (protocol = "curve") then Some "https://api.thegraph.com/subgraphs/name/curvefi/curve"
  else if decide (protocol = "balancer") then Some "https://api.thegraph.com/subgraphs/name/balancer-labs/balancer-v2"
  else if decide (protocol = "compound") then Some "https://api.thegraph.com/subgraphs/name/graphprotocol/compound-v2"
  else if decide (protocol = "aave") then Some "https://api.thegraph.com/subgraphs/name/aave/protocol-v3"
  else if decide (protocol = "uniswap") then Some "https://api.thegraph.com/subgraphs/name/uniswap/uniswap-v3"
  else None.
Proof.
  unfold new_GraphService, subgraphs. cbn [fold_left]. unfold set_client.
  cbn [fst snd].
  repeat (let E := fresh in
          case_decide as E; [rewrite E; by rewrite lookup_insert_eq|];
          rewrite lookup_insert_ne by done).
  apply lookup_empty.
Qed.

(** With the clients the constructor sets up, the default branch of
    [getProtocolMetrics] and of [getUserPositions] is dead code: a
    protocol name either has a client and an adapter, or is refused for
    the lack of a client.  [getTokenMetrics] refuses exactly balancer and
    curve among the protocols that have a client. *)
Theorem dispatch_by_protocol (protocol : string) :
  let known := protocol ∈ ["uniswap"; "aave"; "compound"; "balancer"; "curve"] in
  (known ->
     exists adapter client,
       new_GraphService !! protocol = Some client /\
       getProtocolMetrics new_GraphService protocol = Queries adapter client /\
       getUserPositions new_GraphService protocol = Queries adapter client) /\
  (~ known ->
     getProtocolMetrics new_GraphService protocol
       = Throws ("No client found for protocol: " ++ protocol) /\
     getUserPositions new_GraphService protocol
       = Throws ("No client found for protocol: " ++ protocol) /\
     getTokenMetrics new_GraphService protocol
       = Throws ("No client found for protocol: " ++ protocol)) /\
  (getTokenMetrics new_GraphService protocol
     = Throws ("Token metrics not supported for protocol: " ++ protocol)
   <-> protocol = "balancer" \/ protocol = "curve").
Proof.
  intros known. unfold known, getProtocolMetrics, getUserPositions, getTokenMetrics.
  rewrite new_GraphService_lookup.
  split; [|split].
  - rewrite !elem_of_cons, elem_of_nil.
    intros [->|[->|[->|[->|[->|[]]]]]]; by eexists _, _.
  - rewrite !elem_of_cons, elem_of_nil. intros Hn.
    repeat (let E := fresh in
            case_decide as E; [exfalso; apply Hn; rewrite E; tauto|]).
    done.
  - split.
    + repeat (let E := fresh in
              case_decide as E; [rewrite E; try tauto; try done|]).
      intros Hm. exfalso. injection Hm as Hm. cbv in Hm. discriminate Hm.
    + intros [->| ->]; reflexivity.
Qed.

End GraphMore.

(** * Further properties of the portfolio hook *)

Module PortfolioMore.
Import Portfolio PortfolioProofs.

Local Open Scope Q_scope.

Lemma filter_nil_guard {A} (f : A -> bool) (l : list A) :
  (if (length l =? 0)%nat then [] else List.filter f l) = List.filter f l.
Proof. by destruct l. Qed.

(** The criteria combine by conjunction: a position is returned by a
    call with a chain, a protocol and an asset exactly when the calls
    with the chain alone, the protocol alone and the asset alone each
    return it. *)
Theorem filterPositions_conjunction (positions : list Position)
    (chainId : option N) (protocol asset : option string) (position : Position) :
  position ∈ filterPositions positions chainId protocol asset <->
  position ∈ filterPositions positions chainId None None /\
  position ∈ filterPositions positions None protocol None /\
  position ∈ filterPositions positions None None asset.
Proof.
  unfold filterPositions. rewrite !filter_nil_guard.
  rewrite !list_elem_of_In, !filter_In. cbv zeta.
  rewrite !andb_true_r. simpl.
  rewrite !andb_true_iff. tauto.
Qed.

Lemma filter_all {A} (f : A -> bool) (l : list A) :
  (forall x, f x = true) -> List.filter f l = l.
Proof.
  intros Hf. induction l as [|x l IH]; simpl; [done|]. by rewrite Hf, IH.
Qed.

Lemma includes_empty (s : string) : includes s "" = true.
Proof. by destruct s. Qed.

(** Chain id 0 and the empty string are no criterion; and what is
    returned is always a sublist of the positions held, each element
    of which is on the chain asked for, of the protocol asked for, and
    has the asset asked for inside its asset name. *)
Theorem filterPositions_sound (positions : list Position)
    (chainId : N) (protocol asset : string) :
  filterPositions positions (Some 0%N) (Some "") (Some "") = positions /\
  filterPositions positions None None None = positions /\
  sublist (filterPositions positions (Some chainId) (Some protocol) (Some asset))
    positions /\
  forall position,
    position ∈ filterPositions positions (Some chainId) (Some protocol) (Some asset) ->
    (chainId = 0%N \/ Portfolio.chainId position = chainId) /\
    (protocol = "" \/ Portfolio.protocol position = protocol) /\
    includes (Portfolio.asset position) asset = true.
Proof.
  unfold filterPositions. rewrite !filter_nil_guard.
  split; [|split; [|split]].
  - by apply filter_all.
  - by apply filter_all.
  - induction positions as [|p l IH]; simpl; [constructor|].
    match goal with |- context [if ?b then _ else _] => destruct b end;
      by constructor.
  - intros p Hp%list_elem_of_In%filter_In. destruct Hp as [_ Hp].
    cbv zeta in Hp.
    apply andb_prop in Hp as [Hp Ha]. apply andb_prop in Hp as [Hc Hp].
    split; [|split].
    + apply orb_prop in Hc as [Hc|Hc]; [left|right]; by apply N.eqb_eq.
    + apply orb_prop in Hp as [Hp|Hp]; [left|right]; by apply bool_decide_eq_true in Hp.
    + apply orb_prop in Ha as [Ha|Ha]; [|done].
      apply bool_decide_eq_true in Ha. rewrite Ha. apply includes_empty.
Qed.

Lemma Array_from_Set_spec (xs : list string) : forall seen,
  NoDup seen ->
  NoDup (fold_left Set_add xs seen) /\
  (forall x, x ∈ fold_left Set_add xs seen <-> x ∈ seen \/ x ∈ xs) /\
  (length (fold_left Set_add xs seen) <= length seen + length xs)%nat /\
  exists added, fold_left Set_add xs seen = seen ++ added.
Proof.
  induction xs as [|x xs IH]; intros seen Hnd; simpl.
  - split; [done|]. split; [|split; [lia|by exists []; rewrite app_nil_r]].
    intros y. rewrite elem_of_nil. tauto.
  - assert (NoDup (Set_add seen x)) as Hnd'.
    { unfold Set_add. case_decide; [done|].
      apply NoDup_app. split; [done|]. split; [|apply NoDup_singleton].
      intros y Hy ->%list_elem_of_singleton. done. }
    destruct (IH _ Hnd') as (H1 & H2 & H3 & added & H4).
    split; [done|]. split; [|split].
    + intros y. rewrite H2, elem_of_cons. unfold Set_add.
      case_decide as Hx.
      * split; [tauto|]. intros [?|[->|?]]; tauto.
      * rewrite elem_of_app, list_elem_of_singleton. tauto.
    + etrans; [apply H3|]. unfold Set_add. case_decide; [lia|].
      rewrite length_app. simpl. lia.
    + rewrite H4. unfold Set_add. case_decide; [by eexists|].
      rewrite <- app_assoc. by eexists.
Qed.

(** The networks shown are the chain names of the positions fetched,
    each listed once, so there are never more networks than positions;
    with no position there is no network. *)
Theorem networks_distinct (positionsResponse : list Position) :
  NoDup (networks positionsResponse) /\
  (forall name, name ∈ networks positionsResponse <->
     exists position, position ∈ positionsResponse /\ chainName position = name) /\
  (length (networks positionsResponse) <= activePositions positionsResponse)%nat.
Proof.
  unfold networks, Array_from_Set, activePositions.
  destruct (Array_from_Set_spec (map chainName positionsResponse) [])
    as (H1 & H2 & H3 & _); [constructor|].
  split; [done|]. split.
  - intros name. rewrite H2, elem_of_nil, list_elem_of_fmap.
    split.
    + intros [[]|(p & -> & Hp)]. by exists p.
    + intros (p & Hp & <-). right. by exists p.
  - by rewrite length_map in H3.
Qed.

End PortfolioMore.
